(** * csv_convert: the field-resolution pipeline of [csv_convert.py]

    A shallow embedding of the resolvers ([extract_vendor_number],
    [extract_invoice_number], [extract_financial_details]), the record
    assembler ([extract_records_from_eml]), the de-duplication loop and the
    no-input exit of [main], and the row writer ([write_munis_csv]).

    Modelling conventions.
    - A Python [str] is a [string]; one [ascii] stands for one code point in
      U+0000..U+00FF, so the texts covered are the Latin-1 ones.  The
      character classes [\d], [\s], [\w] are Python's classes for [str]
      patterns cut down to that range.
    - [re] is a backtracking matcher: alternatives are tried left to right,
      repetitions are greedy, and [re.search] tries the start positions from
      left to right.
    - A Python [dict] with string keys is a [gmap string _]; the [set] of
      business keys is a [gset (string * string)].
    - A [float] is an IEEE 754 binary64 value: [float] rounds the decimal
      text to the nearest double, ties to even, and the format [.2f]
      rounds the exact value of the double to hundredths the same way.
    - [os.path] is [posixpath].
    - A function that can raise returns an [option]; [None] is the
      exception.
    - The text extractor, the structured model, the table extractor, the
      mail parser and the file system are parameters; the text extractor
      and the structured model can raise. *)

From Stdlib Require Import Ascii String NArith DecimalString.
From stdpp Require Import base option list sorting gmap strings.

Local Open Scope string_scope.
Local Open Scope list_scope.
Local Open Scope nat_scope.

(** ** Characters *)

Module Chars.

Definition code (c : ascii) : N := N_of_ascii c.

Definition in_range (lo hi : N) (c : ascii) : bool :=
  ((lo <=? code c) && (code c <=? hi))%N.

(** [[0-9]]; within U+0000..U+00FF this is also [\d]. *)
Definition is_digit (c : ascii) : bool := in_range 48 57 c.

Definition is_upper (c : ascii) : bool := in_range 65 90 c.
Definition is_lower (c : ascii) : bool := in_range 97 122 c.

(** [\s] of a [str] pattern, that is [str.isspace]: TAB..CR, FS..US, space,
    NEL (U+0085) and NBSP (U+00A0). *)
Definition is_space (c : ascii) : bool :=
  in_range 9 13 c || in_range 28 32 c
  || (code c =? 133)%N || (code c =? 160)%N.

(** [str.isalnum] on U+0000..U+00FF: the ASCII letters and digits, the
    Latin-1 letters, and the superscript digits and vulgar fractions. *)
Definition is_alnum (c : ascii) : bool :=
  is_digit c || is_upper c || is_lower c
  || (code c =? 170)%N || (code c =? 178)%N || (code c =? 179)%N
  || (code c =? 181)%N || (code c =? 185)%N || (code c =? 186)%N
  || in_range 188 190 c
  || in_range 192 214 c || in_range 216 246 c || in_range 248 255 c.

(** [\w] of a [str] pattern. *)
Definition is_word (c : ascii) : bool := is_alnum c || (code c =? 95)%N.

(** [str.lower] on one character of U+0000..U+00FF. *)
Definition lower (c : ascii) : ascii :=
  if is_upper c || in_range 192 214 c || in_range 216 222 c
  then ascii_of_N (code c + 32) else c.

(** A literal character of a pattern compiled without flags. *)
Definition lit (x : ascii) (c : ascii) : bool := Ascii.eqb x c.

(** A literal ASCII letter of a pattern compiled with [re.IGNORECASE]. *)
Definition lit_i (x : ascii) (c : ascii) : bool :=
  Ascii.eqb (lower x) (lower c).

End Chars.

(** ** The backtracking matcher *)

Module Re.
Import Chars.

Inductive regex : Type :=
| Eps
| Cls (p : ascii → bool)
| Seq (r1 r2 : regex)
| Alt (r1 r2 : regex)
| Opt (r : regex)
| Rep (p : ascii → bool) (lo : nat) (hi : option nat)
| Grp (r : regex)
| WordB
| NotBehind (p : ascii → bool).

(** Where the matcher stands: the number of characters before the cursor,
    the character just before it, the characters after it, and the text
    of group 1 when the group has been closed. *)
Record mstate : Type := MState {
  m_pos : nat;
  m_prev : option ascii;
  m_rest : list ascii;
  m_grp : option (list ascii)
}.

Definition advance (c : ascii) (s : list ascii) (st : mstate) : mstate :=
  MState (S (m_pos st)) (Some c) s (m_grp st).

Definition opt_word (o : option ascii) : bool :=
  match o with Some c => is_word c | None => false end.

(** [\b]: exactly one of the two neighbours is a word character. *)
Definition at_boundary (st : mstate) : bool :=
  xorb (opt_word (m_prev st)) (opt_word (head (m_rest st))).

Definition hi_open (hi : option nat) : bool :=
  match hi with Some 0 => false | _ => true end.

(** Greedy bounded repetition [p{lo,hi}] of a one-character class: take one
    more character when allowed, and fall back to stopping here. *)
Fixpoint rep_greedy {A} (p : ascii → bool) (lo : nat) (hi : option nat)
    (g : option (list ascii)) (pos : nat) (prev : option ascii)
    (s : list ascii) (k : mstate → option A) : option A :=
  let stop := match lo with
              | 0 => k (MState pos prev s g)
              | S _ => None
              end in
  match s with
  | c :: s' =>
      if p c && hi_open hi then
        match rep_greedy p (pred lo) (pred <$> hi) g (S pos) (Some c) s' k with
        | Some x => Some x
        | None => stop
        end
      else stop
  | [] => stop
  end.

Fixpoint mt {A} (r : regex) (st : mstate) (k : mstate → option A) : option A :=
  match r with
  | Eps => k st
  | Cls p =>
      match m_rest st with
      | c :: s' => if p c then k (advance c s' st) else None
      | [] => None
      end
  | Seq r1 r2 => mt r1 st (λ st', mt r2 st' k)
  | Alt r1 r2 =>
      match mt r1 st k with
      | Some x => Some x
      | None => mt r2 st k
      end
  | Opt r1 =>
      match mt r1 st k with
      | Some x => Some x
      | None => k st
      end
  | Rep p lo hi => rep_greedy p lo hi (m_grp st) (m_pos st) (m_prev st) (m_rest st) k
  | Grp r1 =>
      mt r1 st (λ st',
        k (MState (m_pos st') (m_prev st') (m_rest st')
                  (Some (take (m_pos st' - m_pos st) (m_rest st)))))
  | WordB => if at_boundary st then k st else None
  | NotBehind p =>
      match m_prev st with
      | Some c => if p c then None else k st
      | None => k st
      end
  end.

(** A match object: [m.start()], [m.end()], [m.group(0)], [m.group(1)]. *)
Record rmatch : Type := RMatch {
  m_start : nat;
  m_end : nat;
  group0 : string;
  group1 : string
}.

(** The match object of a match that began at [pos], in front of [s], and
    ended in the state [st]; a group that took no part reads as empty. *)
Definition to_match (pos : nat) (s : list ascii) (st : mstate) : rmatch :=
  RMatch pos (m_pos st)
    (string_of_list_ascii (take (m_pos st - pos) s))
    (string_of_list_ascii (default [] (m_grp st))).

(** The pattern matched with the cursor at [(pos, prev, s)]. *)
Definition match_here (r : regex) (pos : nat) (prev : option ascii)
    (s : list ascii) : option rmatch :=
  mt r (MState pos prev s None) (λ st, Some (to_match pos s st)).

Fixpoint search_from (r : regex) (pos : nat) (prev : option ascii)
    (s : list ascii) : option rmatch :=
  match match_here r pos prev s with
  | Some m => Some m
  | None =>
      match s with
      | [] => None
      | c :: s' => search_from r (S pos) (Some c) s'
      end
  end.

(** [re.search(r, text)] *)
Definition search (r : regex) (text : string) : option rmatch :=
  search_from r 0 None (list_ascii_of_string text).

(** [re.match(r, text)] *)
Definition match_ (r : regex) (text : string) : option rmatch :=
  match_here r 0 None (list_ascii_of_string text).

(** The matches of [re.finditer]: after a match the scan resumes at its end;
    [skip] counts the characters of the last match still to be passed.  An
    empty match lets the scan move on by one character. *)
Fixpoint scan (r : regex) (skip : nat) (pos : nat) (prev : option ascii)
    (s : list ascii) : list rmatch :=
  match skip with
  | S skip' =>
      match s with
      | [] => []
      | c :: s' => scan r skip' (S pos) (Some c) s'
      end
  | 0 =>
      match match_here r pos prev s with
      | Some m =>
          m :: match s with
               | [] => []
               | c :: s' => scan r (pred (m_end m - pos)) (S pos) (Some c) s'
               end
      | None =>
          match s with
          | [] => []
          | c :: s' => scan r 0 (S pos) (Some c) s'
          end
      end
  end.

Definition finditer (r : regex) (text : string) : list rmatch :=
  scan r 0 0 None (list_ascii_of_string text).

(** [re.findall] for a pattern without a group: the matched texts. *)
Definition findall0 (r : regex) (text : string) : list string :=
  group0 <$> finditer r text.

(** [re.findall] for a pattern with one group: the texts of the group. *)
Definition findall1 (r : regex) (text : string) : list string :=
  group1 <$> finditer r text.

(** A literal word, and the same under [re.IGNORECASE]. *)
Fixpoint word (s : string) : regex :=
  match s with
  | EmptyString => Eps
  | String c EmptyString => Cls (lit c)
  | String c s' => Seq (Cls (lit c)) (word s')
  end.

Fixpoint word_i (s : string) : regex :=
  match s with
  | EmptyString => Eps
  | String c EmptyString => Cls (lit_i c)
  | String c s' => Seq (Cls (lit_i c)) (word_i s')
  end.

Definition star (p : ascii → bool) : regex := Rep p 0 None.
Definition plus (p : ascii → bool) : regex := Rep p 1 None.
Definition times (p : ascii → bool) (lo hi : nat) : regex := Rep p lo (Some hi).

End Re.

(** ** The [str] and [os.path] operations the program uses *)

Module Py.
Import Chars.

(** [bool(s)] of a [str]. *)
Definition truthy (s : string) : bool := negb (String.eqb s EmptyString).

(** [d.get(k)] used as a condition: the value when it is there and truthy. *)
Definition get_truthy (d : gmap string string) (k : string) : option string :=
  match d !! k with
  | Some v => if truthy v then Some v else None
  | None => None
  end.

(** [s.zfill(width)]: zeros go after a leading sign. *)
Definition zfill (width : nat) (s : string) : string :=
  if (width <=? String.length s)%nat then s
  else
    let fill := string_of_list_ascii (replicate (width - String.length s) "0"%char) in
    match s with
    | String c s' =>
        if Ascii.eqb c "+" || Ascii.eqb c "-" then String c (fill +:+ s')
        else fill +:+ s
    | EmptyString => fill
    end.

Fixpoint lstrip_l (s : list ascii) : list ascii :=
  match s with
  | c :: s' => if is_space c then lstrip_l s' else s
  | [] => []
  end.

(** [s.strip()] *)
Definition strip (s : string) : string :=
  string_of_list_ascii
    (reverse (lstrip_l (reverse (lstrip_l (list_ascii_of_string s))))).

(** [s.replace] of every comma by nothing. *)
Definition remove_commas (s : string) : string :=
  string_of_list_ascii
    (filter (λ c, c ≠ ","%char) (list_ascii_of_string s)).

(** [s.lower()] *)
Definition lower (s : string) : string :=
  string_of_list_ascii (Chars.lower <$> list_ascii_of_string s).

(** [s.endswith(t)] *)
Definition endswith (s t : string) : bool :=
  let ls := list_ascii_of_string s in
  let lt := list_ascii_of_string t in
  bool_decide (drop (length ls - length lt) ls = lt).

(** [s.rfind(c)] for a one-character [c]; [None] stands for -1. *)
Fixpoint rfind_from (c : ascii) (i : nat) (s : list ascii) : option nat :=
  match s with
  | [] => None
  | x :: s' =>
      match rfind_from c (S i) s' with
      | Some j => Some j
      | None => if Ascii.eqb x c then Some i else None
      end
  end.

Definition rfind (c : ascii) (s : list ascii) : option nat := rfind_from c 0 s.

(** [posixpath.basename(p)]: [p[p.rfind('/') + 1:]]. *)
Definition basename (p : string) : string :=
  let l := list_ascii_of_string p in
  string_of_list_ascii
    (drop (match rfind "/" l with Some i => S i | None => 0 end) l).

(** [posixpath.splitext(p)[0]]: the text before the last dot, when that dot
    comes after the last slash and after a character of the file name that
    is not a dot; the whole of [p] otherwise. *)
Definition splitext_root (p : string) : string :=
  let l := list_ascii_of_string p in
  let filename_index := match rfind "/" l with Some i => S i | None => 0 end in
  match rfind "." l with
  | Some dot_index =>
      if bool_decide (filename_index ≤ dot_index)
         && negb (forallb (Ascii.eqb ".")
                    (drop filename_index (take dot_index l)))
      then string_of_list_ascii (take dot_index l)
      else p
  | None => p
  end.

End Py.

(** ** Amounts

    [float(a)] and [f"{x:.2f}"] on the strings the amount pattern yields.

    A float that is not negative is kept as a natural number: every
    finite double is a multiple of 2^-1074, and the double [x] is kept as
    [x * 2^1074]; infinity is kept as [inf], the number that 2^1024 would
    have, which is above every finite double.  Floats then compare as
    these numbers do. *)

Module Amount.
Import Chars.

Definition digit_val (c : ascii) : N := (code c - 48)%N.

Fixpoint digits_val (acc : N) (s : list ascii) : option N :=
  match s with
  | [] => Some acc
  | c :: s' =>
      if is_digit c then digits_val (10 * acc + digit_val c)%N s' else None
  end.

Fixpoint split_dot (s : list ascii) : option (list ascii * list ascii) :=
  match s with
  | [] => None
  | c :: s' =>
      if Ascii.eqb c "." then Some ([], s')
      else '(a, b) ← split_dot s'; Some (c :: a, b)
  end.

(** The integer nearest to [num / den]; of two that are equally near,
    the even one. *)
Definition round_even (num den : N) : N :=
  let q := (num / den)%N in
  let r := (num mod den)%N in
  if (2 * r <? den)%N then q
  else if (den <? 2 * r)%N then (q + 1)%N
  else if N.even q then q else (q + 1)%N.

(** Infinity. *)
Definition inf : N := (2 ^ 2098)%N.

(** The exponent [s] of the spacing of the doubles around [num / den]:
    they are the multiples of [2^s * 2^-1074] there, which leaves 53
    significant bits, and the multiples of 2^-1074 below 2^-1022. *)
Definition spacing (num den : N) : N :=
  (N.log2 (num * 2 ^ 1074 / den) - 52)%N.

(** The double nearest to [num / den], ties to even; infinity when that
    is 2^1024 or more. *)
Definition to_double (num den : N) : N :=
  let n := (round_even (num * 2 ^ 1074) (den * 2 ^ spacing num den)
            * 2 ^ spacing num den)%N in
  if (inf <=? n)%N then inf else n.

(** The number that [a] writes, in hundredths, for [a] of the shape
    digits, dot, two digits (the integer digits may be missing). *)
Definition hundredths (a : string) : option N :=
  '(ip, fp) ← split_dot (list_ascii_of_string a);
  if bool_decide (length fp = 2) then
    i ← digits_val 0 ip;
    f ← digits_val 0 fp;
    Some (100 * i + f)%N
  else None.

(** [float(a)] for [a] of that shape: the double nearest to the number
    written.  [None] is [ValueError]; Python accepts more spellings than
    this, none of which the pattern produces. *)
Definition float_of (a : string) : option N :=
  h ← hundredths a; Some (to_double h 100).

Definition two_digits (n : N) : string :=
  String (ascii_of_N (48 + n / 10)) (String (ascii_of_N (48 + n mod 10)) EmptyString).

(** A number of hundredths written out: the integer part, a dot, two
    digits. *)
Definition print_hundredths (cents : N) : string :=
  NilZero.string_of_uint (N.to_uint (cents / 100)) +:+ "." +:+
  two_digits (cents mod 100).

(** [f"{x:.2f}"]: the exact value of the double rounded to hundredths,
    and [inf] for infinity. *)
Definition fmt2 (x : N) : string :=
  if (inf <=? x)%N then "inf"
  else print_hundredths (round_even (100 * x) (2 ^ 1074)).

(** Decimal text with exactly two fractional digits. *)
Definition two_decimal (s : string) : bool :=
  match split_dot (list_ascii_of_string s) with
  | Some (ip, fp) =>
      bool_decide (ip ≠ []) && forallb is_digit ip
      && bool_decide (length fp = 2) && forallb is_digit fp
  | None => false
  end.

(** [max(nums)] for a non-empty list. *)
Definition py_max (nums : list N) : N :=
  match nums with
  | [] => 0%N
  | x :: l => foldl N.max x l
  end.

Fixpoint insert_desc (x : N) (l : list N) : list N :=
  match l with
  | [] => [x]
  | y :: l' => if (y <? x)%N then x :: l else y :: insert_desc x l'
  end.

(** [sorted(nums, reverse=True)] *)
Definition sorted_desc (nums : list N) : list N := foldr insert_desc [] nums.

End Amount.

(** ** The patterns of the resolvers *)

Module Patterns.
Import Chars Re.

(** [(?:vendor|acct(?:ount)?)\s*(?:#|number)[:\s]*([0-9]{6,8})],
    compiled with [re.IGNORECASE]. *)
Definition vendor_label_re : regex :=
  Seq (Alt (word_i "vendor") (Seq (word_i "acct") (Opt (word_i "ount"))))
 (Seq (star is_space)
 (Seq (Alt (Cls (lit "#")) (word_i "number"))
 (Seq (star (λ c, lit ":" c || is_space c))
      (Grp (times is_digit 6 8))))).

(** [\b\d{8}\b] *)
Definition eight_digit_re : regex :=
  Seq WordB (Seq (times is_digit 8 8) WordB).

(** [[A-Z0-9\-/]] under [re.IGNORECASE] *)
Definition label_token_char (c : ascii) : bool :=
  is_upper c || is_lower c || is_digit c || lit "-" c || lit "/" c.

(** The label pattern of the invoice number, compiled with
    [re.IGNORECASE]: a non-capturing prefix
    [invoice\s*(?:no\.?|#|number)\s*[:\-]?\s*] and then the group
    [([A-Z0-9\-/]{4,20})]. *)
Definition invoice_label_re : regex :=
  Seq (word_i "invoice")
 (Seq (star is_space)
 (Seq (Alt (Seq (word_i "no") (Opt (Cls (lit "."))))
      (Alt (Cls (lit "#")) (word_i "number")))
 (Seq (star is_space)
 (Seq (Opt (Cls (λ c, lit ":" c || lit "-" c)))
 (Seq (star is_space)
      (Grp (times label_token_char 4 20))))))).

(** [[A-Z0-9\-]] *)
Definition date_token_char (c : ascii) : bool :=
  is_upper c || is_digit c || lit "-" c.

(** [\d{1,2}/\d{1,2}/\d{2,4}\s+([A-Z0-9\-]{5,})] *)
Definition date_anchored_re : regex :=
  Seq (times is_digit 1 2)
 (Seq (Cls (lit "/"))
 (Seq (times is_digit 1 2)
 (Seq (Cls (lit "/"))
 (Seq (times is_digit 2 4)
 (Seq (plus is_space)
      (Grp (Rep date_token_char 5 None))))))).

(** [\b[0-9]{2}[A-Z]{3}[0-9]{6,}\b] *)
Definition structural_re : regex :=
  Seq WordB
 (Seq (times is_digit 2 2)
 (Seq (times is_upper 3 3)
 (Seq (Rep is_digit 6 None) WordB))).

(** The pound sign, U+00A3. *)
Definition pound : ascii := "163"%char.

(** The euro sign is U+20AC, which no character of the texts modelled here
    can be: its alternative never matches. *)
Definition euro : regex := Cls (λ _, false).

(** [(?<!\d)(?:USD|US\$|\$|£|€)\s*([\d,]+(?:\.\d{2}))] *)
Definition amt_re : regex :=
  Seq (NotBehind is_digit)
 (Seq (Alt (word "USD") (Alt (word "US$") (Alt (Cls (lit "$"))
           (Alt (Cls (lit pound)) euro))))
 (Seq (star is_space)
      (Grp (Seq (plus (λ c, is_digit c || lit "," c))
           (Seq (Cls (lit ".")) (times is_digit 2 2)))))).

(** [[\d,]+\.\d{2}], the test on a table cell. *)
Definition cell_amount_re : regex :=
  Seq (plus (λ c, is_digit c || lit "," c))
      (Seq (Cls (lit ".")) (times is_digit 2 2)).

End Patterns.

Import Chars Re Patterns Amount.

(** ** The resolvers *)

(** [extract_vendor_number(text, source_file, donut_json)] *)
Definition extract_vendor_number (text source_file : string)
    (donut_json : gmap string string) : string :=
  match Py.get_truthy donut_json "vendor_number" with
  | Some v => v
  | None =>
      match search vendor_label_re text with
      | Some m => Py.zfill 8 (group1 m)
      | None =>
          match findall0 eight_digit_re text with
          | fb0 :: _ => fb0
          | [] => Py.splitext_root (Py.basename source_file)
          end
      end
  end.

(** [a or b or c] over three looked-up fields, used as a condition. *)
Definition get_invoice_field (donut_json : gmap string string) : option string :=
  match Py.get_truthy donut_json "invoice_number" with
  | Some v => Some v
  | None =>
      match Py.get_truthy donut_json "invoice_id" with
      | Some v => Some v
      | None => Py.get_truthy donut_json "invoice_no"
      end
  end.

(** [extract_invoice_number(text, source_file, donut_json)] *)
Definition extract_invoice_number (text source_file : string)
    (donut_json : gmap string string) : string :=
  match get_invoice_field donut_json with
  | Some v => v
  | None =>
      match search invoice_label_re text with
      | Some m => Py.strip (group1 m)
      | None =>
          match search date_anchored_re text with
          | Some m2 => group1 m2
          | None =>
              match findall0 structural_re text with
              | fb0 :: _ => fb0
              | [] => Py.splitext_root (Py.basename source_file)
              end
          end
      end
  end.

(** The list [nums]: [float] of every amount found by [amt_re], commas
    removed; [None] when a conversion raises. *)
Definition amounts (text : string) : option (list N) :=
  mapM (λ a, float_of (Py.remove_commas a)) (findall1 amt_re text).

(** An extracted table: rows of cells, a cell being a string or [None]. *)
Definition table : Type := list (list (option string)).

(** What [pdfplumber] gives for a document: [None] when opening it raises,
    else its pages, each with its tables ([None] when [extract_tables]
    raises on that page). *)
Definition pdf_tables : Type := option (list (option (list table))).

(** [t[-1][-1]], the bottom-right cell; [None] is the [IndexError] of an
    empty table or an empty last row. *)
Definition bottom_right (t : table) : option (option string) :=
  row ← last t; last row.

(** The test on the cell and the value assigned when it passes: the cell
    is a non-empty string at whose start [cell_amount_re] matches, and the
    value is the cell without its commas. *)
Definition accepts (cell : option string) : option string :=
  match cell with
  | Some last =>
      if Py.truthy last && bool_decide (is_Some (match_ cell_amount_re last))
      then Some (Py.remove_commas last)
      else None
  | None => None
  end.

(** The loop over the pages of step 3, with the value it assigns.  Any
    exception, the [IndexError] included, is swallowed by the bare
    [except] and ends the loop. *)
Fixpoint scan_pages (pages : list (option (list table))) : option string :=
  match pages with
  | [] => None
  | None :: _ => None
  | Some tables :: pages' =>
      match tables with
      | [] => scan_pages pages'
      | t0 :: _ =>
          match bottom_right t0 with
          | None => None
          | Some cell =>
              match accepts cell with
              | Some v => Some v
              | None => scan_pages pages'
              end
          end
      end
  end.

Definition table_total (doc : pdf_tables) : option string :=
  pages ← doc; scan_pages pages.

Section Resolution.

(** The table extractor. *)
Context (pdfplumber_open : list Byte.byte → pdf_tables).

(** Step 1, the structured fields. *)
Definition details_from_json (donut_json : gmap string string)
    : gmap string string :=
  let details : gmap string string := ∅ in
  let details :=
    match Py.get_truthy donut_json "invoice_total" with
    | Some jt => <["invoice_total" := jt]> details
    | None => details
    end in
  match Py.get_truthy donut_json "invoice_net_amount" with
  | Some jn => <["invoice_net_amount" := jn]> details
  | None => details
  end.

(** Step 2 for the total. *)
Definition total_from_text (text : string) (details : gmap string string)
    : option (gmap string string) :=
  match details !! "invoice_total" with
  | Some _ => Some details
  | None =>
      nums ← amounts text;
      match nums with
      | [] => Some details
      | _ => Some (<["invoice_total" := fmt2 (py_max nums)]> details)
      end
  end.

(** Step 2 for the net amount. *)
Definition net_from_text (text : string) (details : gmap string string)
    : option (gmap string string) :=
  match details !! "invoice_net_amount" with
  | Some _ => Some details
  | None =>
      nums ← amounts text;
      match nums with
      | _ :: _ :: _ =>
          x ← sorted_desc nums !! 1%nat;
          Some (<["invoice_net_amount" := fmt2 x]> details)
      | x :: _ => Some (<["invoice_net_amount" := fmt2 x]> details)
      | [] => Some details
      end
  end.

(** Step 3, the table fallback. *)
Definition total_from_tables (pdf_bytes : list Byte.byte)
    (details : gmap string string) : gmap string string :=
  match details !! "invoice_total" with
  | Some _ => details
  | None =>
      match table_total (pdfplumber_open pdf_bytes) with
      | Some v => <["invoice_total" := v]> details
      | None => details
      end
  end.

(** [extract_financial_details(text, pdf_bytes, donut_json)]; [None] when
    an exception escapes. *)
Definition extract_financial_details (text : string)
    (pdf_bytes : list Byte.byte) (donut_json : gmap string string)
    : option (gmap string string) :=
  details ← total_from_text text (details_from_json donut_json);
  details ← net_from_text text details;
  Some (total_from_tables pdf_bytes details).

End Resolution.

(** ** Records, the assembler, the de-duplication and the writer *)

(** The dictionary built for one attachment; its four keys are always
    there. *)
Record invoice_record : Type := InvoiceRecord {
  vendor_number : string;
  invoice_number : string;
  invoice_total : string;
  invoice_net_amount : string
}.

Global Instance invoice_record_eq_dec : EqDecision invoice_record.
Proof. solve_decision. Defined.

(** One part of the parsed message, as [msg.walk()] yields it. *)
Record mime_part : Type := MimePart {
  get_filename : option string;
  get_content_type : string;
  get_payload : option (list Byte.byte)
}.

(** The parsed command line. *)
Record args : Type := Args {
  folder : string;
  output : string;
  default_org : string;
  default_object : string;
  remit_number : string;
  invoice_date : string;
  invoice_due_date : string;
  po_fiscal_year : string;
  po_number : string;
  include_documentation : string;
  separate_check : string;
  contract_number : string;
  invoice_description : string;
  project : string;
  po_line_number : string;
  sequence_start : string;
  detail_description : string
}.

(** The test that lets a part through: its content type is
    [application/pdf] or its lower-cased file name ends in [.pdf]. *)
Definition is_pdf_part (part : mime_part) : bool :=
  let fn := match get_filename part with
            | Some f => if Py.truthy f then f else EmptyString
            | None => EmptyString
            end in
  negb (negb (String.eqb (get_content_type part) "application/pdf")
        && negb (Py.endswith (Py.lower fn) ".pdf")).

(** The key of the de-duplication. *)
Definition key (rec : invoice_record) : string * string :=
  (vendor_number rec, invoice_number rec).

(** One turn of the loop over [records] in [main]. *)
Definition dedup_step (st : gset (string * string) * list invoice_record)
    (rec : invoice_record) : gset (string * string) * list invoice_record :=
  let '(seen, unique) := st in
  if decide (key rec ∈ seen) then (seen, unique)
  else ({[key rec]} ∪ seen, unique ++ [rec]).

(** The list [unique] that [main] builds from [records]. *)
Definition deduplicate (records : list invoice_record) : list invoice_record :=
  (foldl dedup_step (∅, []) records).2.

(** The first row written, the column titles. *)
Definition title_row : list string :=
  ["Row Type"; "Vendor Number"; "Remit Number"; "Invoice Number";
   "Invoice Date"; "Invoice Due Date"; "Invoice Total"; "Invoice Net Amount";
   "PO Fiscal Year"; "PO Number"; "Include Documentation"; "Separate Check";
   "Contract Number"; "Invoice Description"].

Definition header_row (rec : invoice_record) (a : args) : list string :=
  ["1"; vendor_number rec; remit_number a; invoice_number rec;
   invoice_date a; invoice_due_date a;
   invoice_total rec; invoice_net_amount rec;
   po_fiscal_year a; po_number a;
   include_documentation a; separate_check a;
   contract_number a; invoice_description a].

Definition detail_row (rec : invoice_record) (a : args) : list string :=
  ["2"; vendor_number rec; sequence_start a; invoice_number rec;
   default_org a; default_object a; project a;
   invoice_total rec; po_line_number a;
   EmptyString; EmptyString; EmptyString; EmptyString; detail_description a].

(** [write_munis_csv(records, out_path, args)]: the rows handed to the
    CSV writer, in the order of the calls of [writerow]. *)
Definition write_munis_csv (records : list invoice_record) (a : args)
    : list (list string) :=
  title_row :: (records ≫= λ rec, [header_row rec a; detail_row rec a]).

(** [posixpath.join(a, b)] *)
Definition path_join (a b : string) : string :=
  match b with
  | String "/" _ => b
  | _ =>
      if negb (Py.truthy a) || Py.endswith a "/" then a +:+ b
      else a +:+ "/" +:+ b
  end.

Fixpoint insert_sorted (x : string) (l : list string) : list string :=
  match l with
  | [] => [x]
  | y :: l' => if String.leb x y then x :: l else y :: insert_sorted x l'
  end.

(** [l.sort()] on strings. *)
Definition sort_strings (l : list string) : list string :=
  foldr insert_sorted [] l.

(** How a run ends: [sys.exit] with a message and nothing written, the rows
    written to the output file, or an exception. *)
Inductive outcome : Type :=
| SysExit (msg : string)
| Wrote (out_path : string) (rows : list (list string))
| Raised.

Section Program.

(** The signal providers.  The text extractor and the structured model
    are called outside any [try]: [None] is an exception that escapes
    the call, and for the structured model also a result that is not a
    dictionary, on which the first [get] raises.  The values of the
    dictionary are taken to be strings. *)
Context (extract_text_from_pdf_bytes : list Byte.byte → option string).
Context (parse_invoice_with_donut :
           list Byte.byte → option (gmap string string)).
Context (pdfplumber_open : list Byte.byte → pdf_tables).

(** The file system and the mail parser: the parts of the message stored
    at a path, which is taken to be a file that can be read (the parser
    accepts any bytes), the directory test, the directory walk, and the
    directory of the script. *)
Context (read_eml : string → list mime_part).
Context (isdir : string → bool).
Context (os_walk : string → list (string * list string)).
Context (script_dir : string).

(** The dictionary appended for one attachment; [None] when an
    exception escapes. *)
Definition record_of_payload (eml_path : string) (payload : list Byte.byte)
    : option invoice_record :=
  text ← extract_text_from_pdf_bytes payload;
  donut_json ← parse_invoice_with_donut payload;
  d1 ← extract_financial_details pdfplumber_open text payload donut_json;
  d2 ← extract_financial_details pdfplumber_open text payload donut_json;
  Some {| vendor_number := extract_vendor_number text eml_path donut_json;
          invoice_number := extract_invoice_number text eml_path donut_json;
          invoice_total := default EmptyString (d1 !! "invoice_total");
          invoice_net_amount := default EmptyString (d2 !! "invoice_net_amount") |}.

(** The loop over the parts of the message; an exception ends it. *)
Fixpoint records_of_parts (eml_path : string) (parts : list mime_part)
    : option (list invoice_record) :=
  match parts with
  | [] => Some []
  | part :: parts' =>
      if is_pdf_part part then
        match get_payload part with
        | None | Some [] => records_of_parts eml_path parts'
        | Some payload =>
            rec ← record_of_payload eml_path payload;
            recs ← records_of_parts eml_path parts';
            Some (rec :: recs)
        end
      else records_of_parts eml_path parts'
  end.

(** [extract_records_from_eml(eml_path)] *)
Definition extract_records_from_eml (eml_path : string)
    : option (list invoice_record) :=
  records_of_parts eml_path (read_eml eml_path).

(** The sorted list [eml_files] of [main]. *)
Definition eml_files_of (dir : string) : list string :=
  sort_strings
    (os_walk dir ≫= λ '(root, files),
       path_join root <$> filter (λ fn, Py.endswith (Py.lower fn) ".eml" = true) files).

(** [main()], after the command line is parsed; the lines printed on the
    way are left out. *)
Definition main (a : args) : outcome :=
  if negb (isdir (folder a)) then
    SysExit ("Error: folder not found: " +:+ folder a)
  else
    match mapM extract_records_from_eml (eml_files_of (folder a)) with
    | None => Raised
    | Some recss =>
        let records := concat recss in
        match records with
        | [] => SysExit "No PDF attachments found."
        | _ => Wrote (path_join script_dir (output a))
                     (write_munis_csv (deduplicate records) a)
        end
    end.

End Program.

(** * Specification-level definitions *)

(** ** What a pattern matches

    [Matches r st st'] holds when [r] can take the matcher from [st] to
    [st'], whatever the order in which the alternatives are tried. *)

Inductive RepMatches (p : ascii → bool) :
    nat → option nat → mstate → mstate → Prop :=
| RM_stop hi st : RepMatches p 0 hi st st
| RM_more lo hi pos prev c s g st' :
    p c = true → hi_open hi = true →
    RepMatches p (pred lo) (pred <$> hi) (MState (S pos) (Some c) s g) st' →
    RepMatches p lo hi (MState pos prev (c :: s) g) st'.

Inductive Matches : regex → mstate → mstate → Prop :=
| M_Eps st : Matches Eps st st
| M_Cls p c s st :
    m_rest st = c :: s → p c = true → Matches (Cls p) st (advance c s st)
| M_Seq r1 r2 st1 st2 st3 :
    Matches r1 st1 st2 → Matches r2 st2 st3 → Matches (Seq r1 r2) st1 st3
| M_AltL r1 r2 st st' : Matches r1 st st' → Matches (Alt r1 r2) st st'
| M_AltR r1 r2 st st' : Matches r2 st st' → Matches (Alt r1 r2) st st'
| M_OptSome r st st' : Matches r st st' → Matches (Opt r) st st'
| M_OptNone r st : Matches (Opt r) st st
| M_Rep p lo hi st st' :
    RepMatches p lo hi st st' → Matches (Rep p lo hi) st st'
| M_Grp r st st' :
    Matches r st st' →
    Matches (Grp r) st
      (MState (m_pos st') (m_prev st') (m_rest st')
              (Some (take (m_pos st' - m_pos st) (m_rest st))))
| M_WordB st : at_boundary st = true → Matches WordB st st
| M_NotBehind p st :
    (∀ c, m_prev st = Some c → p c = false) → Matches (NotBehind p) st st.

(** What a match consumes: the text passed over, and where the cursor
    ends up. *)
Definition consumes (st st' : mstate) (cs : list ascii) : Prop :=
  m_rest st = cs ++ m_rest st'
  ∧ m_pos st' = m_pos st + length cs
  ∧ m_prev st' = from_option Some (m_prev st) (last cs).

(** The cursor after the first [i] characters of a text. *)
Definition cursor (s : list ascii) (i : nat) : mstate :=
  MState i (last (take i s)) (drop i s) None.

(** The pattern matches the text at position [i]. *)
Definition matches_at (r : regex) (s : list ascii) (i : nat) : Prop :=
  ∃ st', Matches r (cursor s i) st'.

(** The matcher run at position [i] of a text. *)
Definition match_at (r : regex) (s : list ascii) (i : nat) : option rmatch :=
  match_here r i (last (take i s)) (drop i s).

(** The texts a pattern can pass over, the assertions left aside. *)
Fixpoint lang (r : regex) (cs : list ascii) : Prop :=
  match r with
  | Eps | WordB | NotBehind _ => cs = []
  | Cls p => ∃ c, cs = [c] ∧ p c = true
  | Seq r1 r2 => ∃ a b, cs = a ++ b ∧ lang r1 a ∧ lang r2 b
  | Alt r1 r2 => lang r1 cs ∨ lang r2 cs
  | Opt r1 => cs = [] ∨ lang r1 cs
  | Rep p lo hi =>
      Forall (λ c, p c = true) cs ∧ lo ≤ length cs
      ∧ ∀ h, hi = Some h → length cs ≤ h
  | Grp r1 => lang r1 cs
  end.

(** A text of the language of a pattern. *)
Definition in_lang (r : regex) (s : string) : Prop :=
  lang r (list_ascii_of_string s).

(** A token: characters of one class, at least [lo] of them. *)
Definition token_of (p : ascii → bool) (lo : nat) (s : string) : Prop :=
  Forall (λ c, p c = true) (list_ascii_of_string s) ∧ lo ≤ String.length s.

(** All the characters are decimal digits. *)
Definition all_digits (s : string) : Prop :=
  Forall (λ c, is_digit c = true) (list_ascii_of_string s).

(** ** The de-duplication *)

(** The list [unique] grows by the records whose key is new; written as a
    recursion on the records still to come. *)
Fixpoint dedup_from (seen : gset (string * string))
    (rs : list invoice_record) : list invoice_record :=
  match rs with
  | [] => []
  | r :: rs' =>
      if decide (key r ∈ seen) then dedup_from seen rs'
      else r :: dedup_from ({[key r]} ∪ seen) rs'
  end.

(** The words of the specification: the records whose key has not
    appeared earlier in the input, in the order of the input. *)
Definition first_occurrences (records : list invoice_record)
    : list invoice_record :=
  (filter (λ ir, key ir.2 ∉ key <$> take ir.1 records) (imap pair records)).*2.

(** ** The resolvers as the specification words them *)

(** The label pattern of the invoice number with the marker optional, and
    otherwise as [invoice_label_re]. *)
Definition invoice_label_re_spec : regex :=
  Seq (word_i "invoice")
 (Seq (star is_space)
 (Seq (Opt (Alt (Seq (word_i "no") (Opt (Cls (lit "."))))
           (Alt (Cls (lit "#")) (word_i "number"))))
 (Seq (star is_space)
 (Seq (Opt (Cls (λ c, lit ":" c || lit "-" c)))
 (Seq (star is_space)
      (Grp (times label_token_char 4 20))))))).


(** A page the loop of the table fallback passes over: it has no table,
    or the bottom-right cell of its first table is there and is not
    accepted. *)
Definition passed_over (page : option (list table)) : Prop :=
  page = Some []
  ∨ ∃ t0 rest cell, page = Some (t0 :: rest)
       ∧ bottom_right t0 = Some cell ∧ accepts cell = None.


(** The row pairs alone, one pair for each record. *)
Definition row_pairs (records : list invoice_record) (a : args)
    : list (list string) :=
  records ≫= λ rec, [header_row rec a; detail_row rec a].

(** ** Amounts *)

(** The list without the first occurrence of [x]. *)
Fixpoint remove_one (x : N) (l : list N) : list N :=
  match l with
  | [] => []
  | y :: l' => if (x =? y)%N then l' else y :: remove_one x l'
  end.

(** Each element is at most the one before it. *)
Fixpoint descending (l : list N) : Prop :=
  match l with
  | a :: (b :: _) as t => (b ≤ a)%N ∧ descending t
  | _ => True
  end.

(** The second-largest value, positions counted apart: the largest once
    one occurrence of the largest is taken out. *)
Definition second_largest (nums : list N) : N :=
  py_max (remove_one (py_max nums) nums).

(** What the text scan gives for the net amount: nothing without a
    candidate, the candidate when there is one, the second-largest when
    there are more. *)
Definition net_of_text (nums : list N) : option string :=
  match nums with
  | [] => None
  | [x] => Some (fmt2 x)
  | _ => Some (fmt2 (second_largest nums))
  end.

(** Every amount found in the text is below 2^1023, as is any number
    of at most 307 digits. *)
Definition finite_amounts (text : string) : Prop :=
  Forall (λ a, ∃ h, hundredths (Py.remove_commas a) = Some h
                    ∧ (h < 100 * 2 ^ 1023)%N)
         (findall1 amt_re text).

(** An amount of 310 digits, with its currency marker. *)
Definition huge_amount : string :=
  string_of_list_ascii
    ("$"%char :: replicate 310 "9"%char ++ ["."%char; "0"%char; "0"%char]).

(** ** The assembler and the run *)

(** The vendor number finds nothing before the file name. *)
Definition vendor_falls_through (text : string)
    (donut_json : gmap string string) : Prop :=
  Py.get_truthy donut_json "vendor_number" = None
  ∧ search vendor_label_re text = None
  ∧ search eight_digit_re text = None.

(** The invoice number finds nothing before the file name. *)
Definition invoice_falls_through (text : string)
    (donut_json : gmap string string) : Prop :=
  get_invoice_field donut_json = None
  ∧ search invoice_label_re text = None
  ∧ search date_anchored_re text = None
  ∧ search structural_re text = None.

(** A part of a message that yields no record: it is not taken for a PDF,
    or it has no payload. *)
Definition yields_nothing (part : mime_part) : Prop :=
  is_pdf_part part = false
  ∨ get_payload part = None ∨ get_payload part = Some [].

(** ** Data of the examples *)

(** A document of two pages, one table on each: the bottom-right cell of
    the first table is a label, that of the second an amount. *)
Definition two_page_doc : pdf_tables :=
  Some [Some [[[Some "Item"; Some "Total"]]];
        Some [[[Some "Total"; Some "1,234.56"]]]].

Definition example_args : args :=
  {| folder := "inbox"; output := "munis_import.csv";
     default_org := "11/03/2026"; default_object := "12/03/2026";
     remit_number := "0";
     invoice_date := "11/03/2026"; invoice_due_date := "12/03/2026";
     po_fiscal_year := EmptyString; po_number := EmptyString;
     include_documentation := EmptyString; separate_check := EmptyString;
     contract_number := EmptyString; invoice_description := EmptyString;
     project := EmptyString; po_line_number := EmptyString;
     sequence_start := "1"; detail_description := EmptyString |}.

Definition example_record : invoice_record :=
  InvoiceRecord "00123456" "INV-2024" "500.00" "450.00".

(** Providers for the examples: the bytes of the attachment are its text,
    the structured model finds nothing, and the document cannot be opened
    for its tables. *)
Definition text_of_bytes (b : list Byte.byte) : option string :=
  Some (string_of_list_ascii (ascii_of_byte <$> b)).
Definition no_fields (b : list Byte.byte) : option (gmap string string) :=
  Some ∅.
Definition no_tables (b : list Byte.byte) : pdf_tables := None.

Definition bytes_of_text (s : string) : list Byte.byte :=
  byte_of_ascii <$> list_ascii_of_string s.

(** A message with a text body and two PDF attachments, the scans of two
    invoices that carry no vendor number and no invoice number. *)
Definition example_parts : list mime_part :=
  [MimePart None "text/plain" (Some (bytes_of_text "see attached"));
   MimePart (Some "scan1.pdf") "application/pdf"
            (Some (bytes_of_text "Total due $500.00"));
   MimePart (Some "SCAN2.PDF") "application/octet-stream"
            (Some (bytes_of_text "Total due $75.00"))].

(** A message without attachments. *)
Definition example_plain_parts : list mime_part :=
  [MimePart None "text/plain" (Some (bytes_of_text "no invoice today"))].

(** The records of the two scans of [example_parts], as assembled for a
    message stored at [inbox/mail.eml]. *)
Definition scan1_record : invoice_record :=
  InvoiceRecord "mail" "mail" "500.00" "500.00".
Definition scan2_record : invoice_record :=
  InvoiceRecord "mail" "mail" "75.00" "75.00".

(** A folder with one message and one other file. *)
Definition example_walk (dir : string) : list (string * list string) :=
  [(dir, ["mail.eml"; "notes.txt"])].

(** * Further definitions *)

(** ** The text of a document *)

(** The loop over the rendered images: the text of each image is added;
    an exception of the OCR ends the loop and keeps what was added. *)
Fixpoint ocr_loop (text : string) (images : list (option string)) : string :=
  match images with
  | [] => text
  | None :: _ => text
  | Some t :: images' => ocr_loop (text +:+ t) images'
  end.

(** One turn of the loop over the pages of the reader: what
    [page.extract_text()] gives is added when it is not [None] and not
    empty. *)
Definition add_page (text : string) (p : option string) : string :=
  match p with
  | Some p => if Py.truthy p then text +:+ p else text
  | None => text
  end.

(** The text of the pages when [extract_text] returns on each. *)
Definition pages_text (pages : list (option string)) : string :=
  foldl add_page EmptyString pages.

(** The loop over the pages, each with the outcome of [extract_text] on
    it: [None] is an exception, which nothing catches. *)
Fixpoint pages_loop (text : string) (pages : list (option (option string)))
    : option string :=
  match pages with
  | [] => Some text
  | None :: _ => None
  | Some p :: pages' => pages_loop (add_page text p) pages'
  end.

(** [extract_text_from_pdf_bytes(b)], given what the libraries do on
    [b]: the reader gives [None] when opening the document raises and
    else its pages, each with the outcome of [extract_text]; the OCR
    gives [None] when rendering the images raises and else, for each
    image, its text or [None] when the recognition raises on it.  The
    result is [None] when an exception escapes. *)
Definition extract_text_from_pdf_bytes
    (reader : option (list (option (option string))))
    (ocr : option (list (option string))) : option string :=
  pages ← reader;
  text ← pages_loop EmptyString pages;
  Some (if String.length (Py.strip text) <? 20 then
          match ocr with
          | Some images => ocr_loop text images
          | None => text
          end
        else text).

(** ** Reading the assembler and the writer back *)


(** The record a row of type 1 was written from. *)
Definition record_of_row (row : list string) : invoice_record :=
  InvoiceRecord (default EmptyString (row !! 1))
                (default EmptyString (row !! 3))
                (default EmptyString (row !! 6))
                (default EmptyString (row !! 7)).

(** The rows at the even positions. *)
Fixpoint every_other (rows : list (list string)) : list (list string) :=
  match rows with
  | row :: _ :: rows' => row :: every_other rows'
  | _ => []
  end.

(** The records read back from what was written: the title row is left
    out, and of each pair of rows the first is read. *)
Definition records_of_rows (rows : list (list string)) : list invoice_record :=
  record_of_row <$> every_other (tail rows).

(** ** Repetitions *)

(** How many characters a greedy repetition of the class [p] takes in
    front of [s] when it is free to stop anywhere: the run of characters
    of the class, up to the bound. *)
Fixpoint run_length (p : ascii → bool) (hi : option nat) (s : list ascii) : nat :=
  match s with
  | c :: s' =>
      if p c && hi_open hi then S (run_length p (pred <$> hi) s') else 0
  | [] => 0
  end.

(** The pattern ends in a group that is one repetition of a class. *)
Fixpoint ends_in_group (r : regex) (p : ascii → bool) (lo : nat)
    (hi : option nat) : Prop :=
  match r with
  | Grp (Rep p' lo' hi') => p' = p ∧ lo' = lo ∧ hi' = hi
  | Seq _ r2 => ends_in_group r2 p lo hi
  | _ => False
  end.

(** The order of [list.sort] on strings. *)
Definition string_le (a b : string) : Prop := String.leb a b = true.

(** The currency markers the amount pattern reads in a Latin-1 text. *)
Definition currency_markers : list string :=
  ["USD"; "US$"; "$"; String pound EmptyString].

(** ** The messages of a run *)

(** The list [eml_files] before it is sorted. *)
Definition eml_candidates (os_walk : string → list (string * list string))
    (dir : string) : list string :=
  os_walk dir ≫= λ '(root, files),
    path_join root <$> filter (λ fn, Py.endswith (Py.lower fn) ".eml" = true) files.

(** The text the OCR adds: the texts of the images up to the first one
    on which it raises. *)
Fixpoint ocr_text (images : list (option string)) : string :=
  match images with
  | Some t :: images' => t +:+ ocr_text images'
  | _ => EmptyString
  end.


(** The same folder listed in two orders. *)
Definition walk_ab (dir : string) : list (string * list string) :=
  [(dir, ["a.eml"; "b.eml"])].
Definition walk_ba (dir : string) : list (string * list string) :=
  [(dir, ["b.eml"; "a.eml"])].

(** ** A text with its characters changed *)

(** The matcher state, and the match object, of a text whose characters
    are changed one by one by [f]. *)
Definition map_state (f : ascii → ascii) (st : mstate) : mstate :=
  MState (m_pos st) (fmap (M:=option) f (m_prev st))
         (fmap (M:=list) f (m_rest st))
         (fmap (M:=option) (fmap (M:=list) f) (m_grp st)).

Definition map_string (f : ascii → ascii) (s : string) : string :=
  string_of_list_ascii (f <$> list_ascii_of_string s).

Definition map_match (f : ascii → ascii) (m : rmatch) : rmatch :=
  RMatch (m_start m) (m_end m) (map_string f (group0 m))
         (map_string f (group1 m)).

(** Every class of the pattern, and the class of the word characters
    where the pattern has a word boundary, holds of [f c] exactly when it
    holds of [c]. *)
Fixpoint blind_to (f : ascii → ascii) (r : regex) : Prop :=
  match r with
  | Eps => True
  | Cls p | NotBehind p | Rep p _ _ => ∀ c, p (f c) = p c
  | Seq r1 r2 | Alt r1 r2 => blind_to f r1 ∧ blind_to f r2
  | Opt r1 | Grp r1 => blind_to f r1
  | WordB => ∀ c, is_word (f c) = is_word c
  end.

(** * Proofs *)

(** ** The matcher against what a pattern matches *)

Section MatcherFacts.
Context {A : Type}.
Implicit Types (k : mstate → option A) (st : mstate) (r : regex).

Lemma rep_greedy_sound p lo hi g pos prev s k x :
  rep_greedy p lo hi g pos prev s k = Some x →
  ∃ st', RepMatches p lo hi (MState pos prev s g) st' ∧ k st' = Some x.
Proof.
  revert lo hi pos prev.
  induction s as [|c s IH]; intros lo hi pos prev; simpl.
  - destruct lo; [|done]. intros Hk. eexists. split; [constructor|done].
  - assert (match lo with 0 => k (MState pos prev (c :: s) g) | S _ => None end
            = Some x →
            ∃ st', RepMatches p lo hi (MState pos prev (c :: s) g) st'
                   ∧ k st' = Some x) as Hstop.
    { destruct lo; [|done]. intros Hk. eexists. split; [constructor|done]. }
    destruct (p c) eqn:Hp, (hi_open hi) eqn:Hhi; simpl; try exact Hstop.
    destruct (rep_greedy p (pred lo) (pred <$> hi) g (S pos) (Some c) s k)
      as [y|] eqn:Hrec; [|exact Hstop].
    intros [= ->]. apply IH in Hrec as (st' & Hm & Hk).
    exists st'. split; [|done]. by constructor.
Qed.

Lemma rep_greedy_complete p lo hi st st' k :
  RepMatches p lo hi st st' → is_Some (k st') →
  is_Some (rep_greedy p lo hi (m_grp st) (m_pos st) (m_prev st) (m_rest st) k).
Proof.
  induction 1 as [hi [pos prev s g]|lo hi pos prev c s g st' Hp Hhi Hm IH];
    intros Hk; simpl in *.
  - destruct s as [|c s]; simpl; [done|].
    destruct (p c && hi_open hi); [|done].
    by destruct (rep_greedy p 0 (pred <$> hi) g (S pos) (Some c) s k).
  - rewrite Hp, Hhi. simpl. destruct (IH Hk) as [y ->]. done.
Qed.

Lemma mt_sound r st k x :
  mt r st k = Some x → ∃ st', Matches r st st' ∧ k st' = Some x.
Proof.
  revert st k.
  induction r as [|p|r1 IH1 r2 IH2|r1 IH1 r2 IH2|r1 IH1|p lo hi|r1 IH1| |p];
    intros st k; simpl.
  - intros Hk. exists st. split; [constructor|done].
  - destruct (m_rest st) as [|c s] eqn:Hs; [done|].
    destruct (p c) eqn:Hp; [|done].
    intros Hk. eexists. split; [by econstructor|done].
  - intros (st1 & Hm1 & (st2 & Hm2 & Hk)%IH2)%IH1.
    exists st2. split; [by econstructor|done].
  - destruct (mt r1 st k) as [y|] eqn:H1.
    + intros [= ->]. apply IH1 in H1 as (st' & Hm & Hk).
      exists st'. split; [by constructor|done].
    + intros (st' & Hm & Hk)%IH2. exists st'. split; [by apply M_AltR|done].
  - destruct (mt r1 st k) as [y|] eqn:H1.
    + intros [= ->]. apply IH1 in H1 as (st' & Hm & Hk).
      exists st'. split; [by constructor|done].
    + intros Hk. exists st. split; [apply M_OptNone|done].
  - intros (st' & Hm & Hk)%rep_greedy_sound.
    exists st'. split; [|done]. constructor. by destruct st.
  - intros (st' & Hm & Hk)%IH1. eexists. split; [by constructor|done].
  - destruct (at_boundary st) eqn:Hb; [|done].
    intros Hk. exists st. split; [by constructor|done].
  - destruct (m_prev st) as [c|] eqn:Hprev.
    + destruct (p c) eqn:Hp; [done|].
      intros Hk. exists st. split; [|done]. constructor. congruence.
    + intros Hk. exists st. split; [|done]. constructor. congruence.
Qed.

Lemma mt_complete r st st' k :
  Matches r st st' → is_Some (k st') → is_Some (mt r st k).
Proof.
  intros Hm. revert k.
  induction Hm as [st|p c s st Hs Hp|r1 r2 st1 st2 st3 _ IH1 _ IH2
                  |r1 r2 st st' _ IH|r1 r2 st st' _ IH|r1 st st' _ IH|r1 st
                  |p lo hi st st' Hrep|r1 st st' _ IH|st Hb|p st Hp];
    intros k Hk; simpl.
  - done.
  - by rewrite Hs, Hp.
  - apply IH1, IH2, Hk.
  - destruct (IH k Hk) as [y ->]. done.
  - destruct (mt r1 st k); [done|]. by apply IH.
  - destruct (IH k Hk) as [y ->]. done.
  - by destruct (mt r1 st k).
  - by eapply rep_greedy_complete.
  - by apply IH.
  - by rewrite Hb.
  - destruct (m_prev st) as [c|] eqn:Hprev; [|done]. by rewrite (Hp c).
Qed.

End MatcherFacts.

Lemma consumes_nil st : consumes st st [].
Proof. by repeat split; simpl; rewrite ?Nat.add_0_r. Qed.

Lemma consumes_trans st1 st2 st3 cs1 cs2 :
  consumes st1 st2 cs1 → consumes st2 st3 cs2 → consumes st1 st3 (cs1 ++ cs2).
Proof.
  intros (Hr1 & Hp1 & Hv1) (Hr2 & Hp2 & Hv2). repeat split.
  - by rewrite Hr1, Hr2, app_assoc.
  - rewrite Hp2, Hp1, length_app. lia.
  - rewrite Hv2, Hv1. destruct cs2 as [|c cs2 _] using rev_ind.
    + by rewrite app_nil_r.
    + by rewrite app_assoc, !last_snoc.
Qed.

Lemma RepMatches_consumes p lo hi st st' :
  RepMatches p lo hi st st' →
  ∃ cs, consumes st st' cs ∧ Forall (λ c, p c = true) cs
        ∧ lo ≤ length cs ∧ (∀ h, hi = Some h → length cs ≤ h)
        ∧ m_grp st' = m_grp st.
Proof.
  induction 1 as [hi st|lo hi pos prev c s g st' Hp Hhi _ IH].
  - exists []. split; [apply consumes_nil|]. repeat split; simpl; [done|lia|lia].
  - destruct IH as (cs & (Hr & Hpos & Hprev) & Hall & Hlo & Hbound & Hg).
    simpl in *. exists (c :: cs). repeat split; simpl.
    + by rewrite Hr.
    + lia.
    + rewrite Hprev. destruct cs as [|c' cs]; [done|].
      change (last (c :: c' :: cs)) with (last (c' :: cs)).
      destruct (last (c' :: cs)) eqn:Hl; [done|]. by apply last_None in Hl.
    + by constructor.
    + lia.
    + intros h ->. destruct h as [|h]; [done|].
      specialize (Hbound h eq_refl). lia.
    + done.
Qed.

Lemma Matches_consumes r st st' :
  Matches r st st' → ∃ cs, consumes st st' cs.
Proof.
  induction 1 as [st|p c s st Hs Hp|r1 r2 st1 st2 st3 _ [cs1 IH1] _ [cs2 IH2]
                 |r1 r2 st st' _ IH|r1 r2 st st' _ IH|r1 st st' _ IH|r1 st
                 |p lo hi st st' Hrep|r1 st st' _ [cs IH]|st Hb|p st Hp];
    try (exists []; apply consumes_nil); try done.
  - exists [c]. repeat split; simpl; [done|lia].
  - exists (cs1 ++ cs2). by eapply consumes_trans.
  - apply RepMatches_consumes in Hrep as (cs & ? & _). by exists cs.
  - exists cs. destruct IH as (? & ? & ?). by repeat split.
Qed.

(** The text a closed group holds is the text its body consumed. *)
Lemma Matches_Grp_inv r st st'' :
  Matches (Grp r) st st'' →
  ∃ st' cs, Matches r st st' ∧ consumes st st' cs ∧ consumes st st'' cs
            ∧ m_grp st'' = Some cs.
Proof.
  inversion 1 as [| | | | | | | |r' st0 st' Hm| |]; subst.
  destruct (Matches_consumes _ _ _ Hm) as [cs Hc].
  exists st', cs. split; [done|]. split; [done|].
  destruct Hc as (Hr & Hp & Hv). split; [by repeat split|]. simpl.
  f_equal. rewrite Hp, Hr.
  replace (m_pos st + length cs - m_pos st) with (length cs) by lia.
  by rewrite take_app_length.
Qed.

(** ** Searching *)

Lemma cursor_next (s : list ascii) i c s' :
  drop i s = c :: s' → last (take (S i) s) = Some c ∧ drop (S i) s = s'.
Proof.
  intros Hd.
  assert (drop i s !! 0 = Some c) as Hi by (by rewrite Hd).
  rewrite lookup_drop, Nat.add_0_r in Hi.
  split.
  - by rewrite (take_S_r _ _ _ Hi), last_snoc.
  - rewrite (drop_S _ _ _ Hi) in Hd. by injection Hd.
Qed.

Lemma match_at_Some r s i m :
  match_at r s i = Some m →
  ∃ st' cs, Matches r (cursor s i) st' ∧ consumes (cursor s i) st' cs
            ∧ m = RMatch i (i + length cs) (string_of_list_ascii cs)
                    (string_of_list_ascii (default [] (m_grp st'))).
Proof.
  unfold match_at, match_here. intros (st' & Hm & Hk)%mt_sound.
  destruct (Matches_consumes _ _ _ Hm) as [cs Hc].
  exists st', cs. split; [done|]. split; [done|].
  destruct Hc as (Hr & Hp & _). simpl in *. injection Hk as <-.
  unfold to_match. rewrite Hp, Hr. f_equal. f_equal.
  replace (i + length cs - i) with (length cs) by lia.
  by rewrite take_app_length.
Qed.

Lemma match_at_None r s i : match_at r s i = None ↔ ¬ matches_at r s i.
Proof.
  unfold match_at, match_here, matches_at. split.
  - intros Hnone [st' Hm].
    destruct (mt_complete r _ _ (λ st, Some (to_match i (drop i s) st)) Hm)
      as [x Hx]; [done|].
    unfold cursor in Hx. by rewrite Hnone in Hx.
  - intros Hno.
    destruct (mt r _ _) as [m|] eqn:Hmt; [|done].
    apply mt_sound in Hmt as (st' & Hm & _). destruct Hno. by exists st'.
Qed.

Lemma match_at_start r s i m : match_at r s i = Some m → m_start m = i.
Proof. intros (st' & cs & _ & _ & ->)%match_at_Some. done. Qed.

Lemma search_from_Some r s n : ∀ i m,
  length s - i = n →
  search_from r i (last (take i s)) (drop i s) = Some m →
  ∃ j, i ≤ j ∧ match_at r s j = Some m
       ∧ ∀ j', i ≤ j' → j' < j → match_at r s j' = None.
Proof.
  induction n as [|n IH]; intros i m Hn Hsearch.
  - destruct (drop i s) as [|c s'] eqn:Hd.
    + simpl in Hsearch.
      destruct (match_here r i (last (take i s)) []) eqn:Hhere; [|done].
      exists i. split; [done|]. split; [|lia].
      unfold match_at. rewrite Hd. congruence.
    + apply (f_equal length) in Hd. rewrite length_drop in Hd. simpl in Hd. lia.
  - destruct (drop i s) as [|c s'] eqn:Hd.
    { apply (f_equal length) in Hd. rewrite length_drop in Hd. simpl in Hd. lia. }
    simpl in Hsearch.
    destruct (match_here r i (last (take i s)) (c :: s')) eqn:Hhere.
    + exists i. split; [done|]. split; [|lia].
      unfold match_at. rewrite Hd. congruence.
    + destruct (cursor_next _ _ _ _ Hd) as [Hlast Hdrop].
      rewrite <- Hlast, <- Hdrop in Hsearch.
      apply IH in Hsearch as (j & Hj & Hm & Hearlier); [|lia].
      exists j. split; [lia|]. split; [done|].
      intros j' Hj1 Hj2. destruct (decide (j' = i)) as [->|Hne].
      * unfold match_at. by rewrite Hd.
      * apply Hearlier; lia.
Qed.

Lemma search_from_None r s n : ∀ i,
  length s - i = n → i ≤ length s →
  search_from r i (last (take i s)) (drop i s) = None →
  ∀ j, i ≤ j → j ≤ length s → match_at r s j = None.
Proof.
  induction n as [|n IH]; intros i Hn Hi Hsearch j Hj1 Hj2.
  - assert (j = i) as -> by lia.
    destruct (drop i s) as [|c s'] eqn:Hd; simpl in Hsearch;
      unfold match_at; rewrite Hd;
      by destruct (match_here r i (last (take i s)) _).
  - destruct (drop i s) as [|c s'] eqn:Hd.
    { apply (f_equal length) in Hd. rewrite length_drop in Hd. simpl in Hd. lia. }
    simpl in Hsearch.
    destruct (match_here r i (last (take i s)) (c :: s')) eqn:Hhere; [done|].
    destruct (decide (j = i)) as [->|Hne].
    { unfold match_at. by rewrite Hd. }
    destruct (cursor_next _ _ _ _ Hd) as [Hlast Hdrop].
    rewrite <- Hlast, <- Hdrop in Hsearch.
    eapply IH; [| |exact Hsearch| |]; lia.
Qed.

(** [re.search] returns the match at the leftmost position where the
    pattern matches at all. *)
Lemma search_leftmost r text m :
  search r text = Some m →
  match_at r (list_ascii_of_string text) (m_start m) = Some m
  ∧ matches_at r (list_ascii_of_string text) (m_start m)
  ∧ ∀ j, j < m_start m → ¬ matches_at r (list_ascii_of_string text) j.
Proof.
  unfold search. intros Hsearch.
  set (s := list_ascii_of_string text) in *.
  pose proof (search_from_Some r s (length s - 0) 0 m eq_refl) as Hspec.
  rewrite take_0, drop_0 in Hspec. simpl in Hspec.
  destruct (Hspec Hsearch) as (j & _ & Hm & Hearlier).
  rewrite (match_at_start _ _ _ _ Hm). split; [done|]. split.
  - apply match_at_Some in Hm as (st' & _ & Hm & _). by exists st'.
  - intros j' Hj'. apply match_at_None, Hearlier; lia.
Qed.

(** [re.search] finds nothing only when the pattern matches nowhere. *)
Lemma search_None r text :
  search r text = None →
  ∀ j, j ≤ length (list_ascii_of_string text) →
       ¬ matches_at r (list_ascii_of_string text) j.
Proof.
  unfold search. intros Hsearch j Hj.
  set (s := list_ascii_of_string text) in *.
  apply match_at_None.
  apply (search_from_None r s (length s - 0) 0 eq_refl); [lia| |lia|done].
  by rewrite take_0, drop_0.
Qed.

(** The first match of the scan is the match of [re.search]. *)
Lemma scan_head r pos prev s :
  head (scan r 0 pos prev s) = search_from r pos prev s.
Proof.
  revert pos prev. induction s as [|c s IH]; intros pos prev; simpl.
  - by destruct (match_here r pos prev []).
  - destruct (match_here r pos prev (c :: s)); [done|]. apply IH.
Qed.

Lemma findall0_head r text :
  head (findall0 r text) = group0 <$> search r text.
Proof.
  unfold findall0, finditer, search. rewrite <- scan_head.
  by destruct (scan r 0 0 None (list_ascii_of_string text)).
Qed.

(** Every match of the scan is a match of the pattern somewhere. *)
Lemma scan_at r s n : ∀ skip i m,
  length s - i = n →
  m ∈ scan r skip i (last (take i s)) (drop i s) →
  ∃ j, match_at r s j = Some m.
Proof.
  induction n as [|n IH]; intros skip i m Hn Hin.
  - destruct (drop i s) as [|c s'] eqn:Hd.
    + destruct skip; simpl in Hin; [|by apply elem_of_nil in Hin].
      destruct (match_here r i (last (take i s)) []) eqn:Hhere;
        [|by apply elem_of_nil in Hin].
      apply list_elem_of_singleton in Hin as ->.
      exists i. unfold match_at. by rewrite Hd.
    + apply (f_equal length) in Hd. rewrite length_drop in Hd. simpl in Hd. lia.
  - destruct (drop i s) as [|c s'] eqn:Hd.
    { apply (f_equal length) in Hd. rewrite length_drop in Hd. simpl in Hd. lia. }
    destruct (cursor_next _ _ _ _ Hd) as [Hlast Hdrop].
    destruct skip; simpl in Hin.
    + destruct (match_here r i (last (take i s)) (c :: s')) as [m'|] eqn:Hhere.
      * apply elem_of_cons in Hin as [->|Hin].
        { exists i. unfold match_at. by rewrite Hd. }
        rewrite <- Hlast, <- Hdrop in Hin. eapply IH; [|exact Hin]. lia.
      * rewrite <- Hlast, <- Hdrop in Hin. eapply IH; [|exact Hin]. lia.
    + rewrite <- Hlast, <- Hdrop in Hin. eapply IH; [|exact Hin]. lia.
Qed.

Lemma finditer_at r text m :
  m ∈ finditer r text → ∃ j, match_at r (list_ascii_of_string text) j = Some m.
Proof.
  unfold finditer. intros Hin.
  apply (scan_at r (list_ascii_of_string text) _ 0 0 m eq_refl).
  by rewrite take_0, drop_0.
Qed.

(** ** The shape of what is matched *)

Lemma consumes_inj st st' cs cs' :
  consumes st st' cs → consumes st st' cs' → cs = cs'.
Proof.
  intros (Hr & _ & _) (Hr' & _ & _). rewrite Hr in Hr'.
  by apply app_inv_tail in Hr'.
Qed.

Lemma Matches_lang r st st' :
  Matches r st st' → ∀ cs, consumes st st' cs → lang r cs.
Proof.
  induction 1 as [st|p c s st Hs Hp|r1 r2 st1 st2 st3 Hm1 IH1 Hm2 IH2
                 |r1 r2 st st' _ IH|r1 r2 st st' _ IH|r1 st st' _ IH|r1 st
                 |p lo hi st st' Hrep|r1 st st' Hm IH|st Hb|p st Hp];
    intros cs Hc; simpl.
  - apply (consumes_inj _ _ _ _ Hc), consumes_nil.
  - exists c. split; [|done]. apply (consumes_inj _ _ _ _ Hc).
    repeat split; simpl; [done|lia].
  - destruct (Matches_consumes _ _ _ Hm1) as [cs1 Hc1].
    destruct (Matches_consumes _ _ _ Hm2) as [cs2 Hc2].
    exists cs1, cs2. split; [|split; [by apply IH1|by apply IH2]].
    apply (consumes_inj _ _ _ _ Hc). by eapply consumes_trans.
  - left. by apply IH.
  - right. by apply IH.
  - right. by apply IH.
  - left. apply (consumes_inj _ _ _ _ Hc), consumes_nil.
  - apply RepMatches_consumes in Hrep as (cs' & Hc' & Hall & Hlo & Hhi & _).
    by rewrite (consumes_inj _ _ _ _ Hc Hc').
  - apply IH. destruct Hc as (? & ? & ?). by repeat split.
  - apply (consumes_inj _ _ _ _ Hc), consumes_nil.
  - apply (consumes_inj _ _ _ _ Hc), consumes_nil.
Qed.

Lemma Matches_Seq_inv r1 r2 st st'' :
  Matches (Seq r1 r2) st st'' → ∃ st', Matches r1 st st' ∧ Matches r2 st' st''.
Proof. inversion 1; subst. eauto. Qed.

(** A group that closes a pattern holds a text of its body's language. *)
Lemma Matches_Grp_lang r st st' :
  Matches (Grp r) st st' → ∃ cs, m_grp st' = Some cs ∧ lang r cs.
Proof.
  intros (st1 & cs & Hm & Hc & _ & Hg)%Matches_Grp_inv.
  exists cs. split; [done|]. by eapply Matches_lang.
Qed.

(** The whole match lies in the language of the pattern. *)
Lemma match_at_lang r s i m :
  match_at r s i = Some m →
  ∃ cs, group0 m = string_of_list_ascii cs ∧ lang r cs
        ∧ m_start m = i ∧ m_end m = i + length cs
        ∧ drop i s = cs ++ drop (i + length cs) s.
Proof.
  intros (st' & cs & Hm & Hc & ->)%match_at_Some. simpl.
  exists cs. split; [done|]. split; [by eapply Matches_lang|].
  split; [done|]. split; [done|].
  destruct Hc as (Hr & _ & _). simpl in Hr.
  rewrite <- drop_drop, Hr. by rewrite drop_app_length.
Qed.

Ltac seq_inv H :=
  repeat (let st := fresh "st" in
          let H1 := fresh "Hpre" in
          apply Matches_Seq_inv in H as (st & H1 & H)).

Lemma vendor_label_group s i m :
  match_at vendor_label_re s i = Some m →
  ∃ cs, group1 m = string_of_list_ascii cs
        ∧ Forall (λ c, is_digit c = true) cs ∧ 6 ≤ length cs ∧ length cs ≤ 8.
Proof.
  intros (st' & cs0 & Hm & _ & ->)%match_at_Some. simpl.
  unfold vendor_label_re in Hm. seq_inv Hm.
  apply Matches_Grp_lang in Hm as (cs & -> & Hall & Hlo & Hhi).
  exists cs. repeat split; [done|done|]. by apply Hhi.
Qed.

Lemma invoice_label_group s i m :
  match_at invoice_label_re s i = Some m →
  ∃ cs, group1 m = string_of_list_ascii cs
        ∧ Forall (λ c, label_token_char c = true) cs
        ∧ 4 ≤ length cs ∧ length cs ≤ 20.
Proof.
  intros (st' & cs0 & Hm & _ & ->)%match_at_Some. simpl.
  unfold invoice_label_re in Hm. seq_inv Hm.
  apply Matches_Grp_lang in Hm as (cs & -> & Hall & Hlo & Hhi).
  exists cs. repeat split; [done|done|]. by apply Hhi.
Qed.

Lemma date_anchored_group s i m :
  match_at date_anchored_re s i = Some m →
  ∃ cs, group1 m = string_of_list_ascii cs
        ∧ Forall (λ c, date_token_char c = true) cs ∧ 5 ≤ length cs.
Proof.
  intros (st' & cs0 & Hm & _ & ->)%match_at_Some. simpl.
  unfold date_anchored_re in Hm. seq_inv Hm.
  apply Matches_Grp_lang in Hm as (cs & -> & Hall & Hlo & Hhi).
  by exists cs.
Qed.

Lemma amt_group s i m :
  match_at amt_re s i = Some m →
  ∃ ip d1 d2, group1 m = string_of_list_ascii (ip ++ ["."%char; d1; d2])
     ∧ Forall (λ c, is_digit c || lit "," c = true) ip ∧ 1 ≤ length ip
     ∧ is_digit d1 = true ∧ is_digit d2 = true.
Proof.
  intros (st' & cs0 & Hm & _ & ->)%match_at_Some. simpl.
  unfold amt_re in Hm. seq_inv Hm.
  apply Matches_Grp_lang in Hm as (cs & -> & Hl). cbn [lang plus times] in Hl.
  destruct Hl as (ip & rest & -> & (Hip & Hlen & _) & (dot & fp & -> &
                  (c & -> & Hdot) & (Hfp & Hlo & Hhi))).
  specialize (Hhi 2 eq_refl).
  destruct fp as [|d1 [|d2 [|? ?]]]; simpl in Hlo, Hhi; try lia.
  apply Forall_cons in Hfp as [Hd1 Hfp]. apply Forall_cons in Hfp as [Hd2 _].
  unfold lit in Hdot. apply Ascii.eqb_eq in Hdot as <-.
  by exists ip, d1, d2.
Qed.

Lemma eight_digit_whole s i m :
  match_at eight_digit_re s i = Some m →
  ∃ cs, group0 m = string_of_list_ascii cs
        ∧ Forall (λ c, is_digit c = true) cs ∧ length cs = 8.
Proof.
  intros (cs & -> & Hl & _)%match_at_lang. simpl in Hl.
  destruct Hl as (a & b & -> & -> & (ds & c & -> & (Hall & Hlo & Hhi) & ->)).
  specialize (Hhi 8 eq_refl).
  exists ds. rewrite app_nil_r. simpl. repeat split; [done|lia].
Qed.

Lemma structural_whole s i m :
  match_at structural_re s i = Some m →
  ∃ d l n, group0 m = string_of_list_ascii (d ++ l ++ n)
        ∧ Forall (λ c, is_digit c = true) d ∧ length d = 2
        ∧ Forall (λ c, is_upper c = true) l ∧ length l = 3
        ∧ Forall (λ c, is_digit c = true) n ∧ 6 ≤ length n.
Proof.
  intros (cs & -> & Hl & _)%match_at_lang. simpl in Hl.
  destruct Hl as (a & b & -> & -> & (d & b' & -> & (Hd & Hdlo & Hdhi) &
     (l & b'' & -> & (Hu & Hulo & Huhi) & (n & e & -> & (Hn & Hnlo & _) & ->)))).
  specialize (Hdhi 2 eq_refl). specialize (Huhi 3 eq_refl).
  exists d, l, n. rewrite app_nil_r. simpl. repeat split; try done; lia.
Qed.




(** ** Strings, paths and amounts *)

Lemma string_length_of_list l :
  String.length (string_of_list_ascii l) = length l.
Proof. induction l as [|c l IH]; simpl; [done|]. by rewrite IH. Qed.

Lemma string_of_list_app l1 l2 :
  string_of_list_ascii (l1 ++ l2)
  = string_of_list_ascii l1 +:+ string_of_list_ascii l2.
Proof. induction l1 as [|c l1 IH]; simpl; [done|]. by rewrite IH. Qed.

Lemma string_of_list_nonempty l : l ≠ [] → string_of_list_ascii l ≠ EmptyString.
Proof. by destruct l. Qed.

Lemma string_nonempty_length s : 0 < String.length s → s ≠ EmptyString.
Proof. destruct s; simpl; [lia|done]. Qed.

Lemma digit_not_sign c :
  is_digit c = true → Ascii.eqb c "+" || Ascii.eqb c "-" = false.
Proof.
  intros Hd. destruct (Ascii.eqb_spec c "+") as [->|_]; [done|].
  by destruct (Ascii.eqb_spec c "-") as [->|_].
Qed.

(** Padding a run of at most eight digits gives eight digits. *)
Lemma zfill_digits cs :
  Forall (λ c, is_digit c = true) cs → length cs ≤ 8 →
  Py.zfill 8 (string_of_list_ascii cs)
  = string_of_list_ascii (replicate (8 - length cs) "0"%char ++ cs).
Proof.
  intros Hall Hlen. unfold Py.zfill. rewrite string_length_of_list.
  destruct (8 <=? length cs) eqn:Hle.
  - apply Nat.leb_le in Hle. by replace (8 - length cs) with 0 by lia.
  - rewrite string_of_list_app. destruct cs as [|c cs]; simpl.
    + done.
    + apply Forall_cons in Hall as [Hc _]. by rewrite (digit_not_sign c Hc).
Qed.

Lemma zfill_digits_spec cs :
  Forall (λ c, is_digit c = true) cs → 6 ≤ length cs → length cs ≤ 8 →
  String.length (Py.zfill 8 (string_of_list_ascii cs)) = 8
  ∧ all_digits (Py.zfill 8 (string_of_list_ascii cs)).
Proof.
  intros Hall Hlo Hhi. rewrite zfill_digits by done. split.
  - rewrite string_length_of_list, length_app, length_replicate. lia.
  - unfold all_digits. rewrite list_ascii_of_string_of_list_ascii.
    apply Forall_app. split; [|done]. by apply Forall_replicate.
Qed.

(** The root of a non-empty file name is not empty. *)
Lemma splitext_root_nonempty q :
  q ≠ EmptyString → Py.splitext_root q ≠ EmptyString.
Proof.
  intros Hq. unfold Py.splitext_root.
  destruct (Py.rfind "." (list_ascii_of_string q)) as [dot|]; [|done].
  set (l := list_ascii_of_string q).
  set (fi := match Py.rfind "/" l with Some i => S i | None => 0 end).
  destruct (bool_decide (fi ≤ dot)
            && negb (forallb (Ascii.eqb ".") (drop fi (take dot l))))
    eqn:Hsplit; [|done].
  apply andb_true_iff in Hsplit as [_ Hdots].
  apply string_of_list_nonempty. intros Hnil. by rewrite Hnil, drop_nil in Hdots.
Qed.

Lemma rfind_from_Some c i s j :
  Py.rfind_from c i s = Some j → i ≤ j ∧ s !! (j - i) = Some c.
Proof.
  revert i. induction s as [|x s IH]; intros i; simpl; [done|].
  destruct (Py.rfind_from c (S i) s) as [j'|] eqn:Hrec.
  - intros [= ->]. apply IH in Hrec as [Hle Hl]. split; [lia|].
    replace (j - i) with (S (j - S i)) by lia. done.
  - destruct (Ascii.eqb_spec x c) as [->|_]; [|done].
    intros [= ->]. split; [done|]. by rewrite Nat.sub_diag.
Qed.

(** A path that does not end in a slash has a base name. *)
Lemma basename_nonempty p c :
  last (list_ascii_of_string p) = Some c → c ≠ "/"%char →
  Py.basename p ≠ EmptyString.
Proof.
  intros Hlast Hc. unfold Py.basename.
  set (l := list_ascii_of_string p) in *.
  apply string_of_list_nonempty.
  destruct (Py.rfind "/" l) as [i|] eqn:Hr.
  - apply rfind_from_Some in Hr as [_ Hi]. rewrite Nat.sub_0_r in Hi.
    intros Hnil. apply drop_nil_inv in Hnil.
    pose proof (lookup_lt_Some _ _ _ Hi) as Hlt.
    rewrite last_lookup in Hlast.
    replace (pred (length l)) with i in Hlast by lia. congruence.
  - rewrite drop_0. intros Hnil. by rewrite Hnil in Hlast.
Qed.

(** *** Conversions and formatting *)

Lemma digits_val_is_Some l acc :
  Forall (λ c, is_digit c = true) l → is_Some (digits_val acc l).
Proof.
  revert acc. induction l as [|c l IH]; intros acc Hall; simpl; [done|].
  apply Forall_cons in Hall as [-> Hl]. by apply IH.
Qed.

Lemma split_dot_app a b :
  Forall (λ c, c ≠ "."%char) a → split_dot (a ++ "."%char :: b) = Some (a, b).
Proof.
  induction a as [|c a IH]; intros Hall; simpl; [done|].
  apply Forall_cons in Hall as [Hc Ha].
  destruct (Ascii.eqb_spec c ".") as [|_]; [done|]. by rewrite IH.
Qed.

Lemma digit_not_dot c : is_digit c = true → c ≠ "."%char.
Proof. by intros Hd ->. Qed.

Lemma digit_not_comma c : is_digit c = true → c ≠ ","%char.
Proof. by intros Hd ->. Qed.

Lemma digit_or_comma c :
  is_digit c || lit "," c = true → is_digit c = true ∨ c = ","%char.
Proof.
  intros [?|Hl]%orb_true_iff; [by left|right].
  unfold lit in Hl. by apply Ascii.eqb_eq in Hl.
Qed.

Lemma filter_commas_digits ip :
  Forall (λ c, is_digit c || lit "," c = true) ip →
  Forall (λ c, is_digit c = true) (filter (λ c, c ≠ ","%char) ip).
Proof.
  induction ip as [|c ip IH]; intros Hall; [constructor|].
  apply Forall_cons in Hall as [Hc Hip]. rewrite filter_cons.
  destruct (decide (c ≠ ","%char)) as [Hne|_]; [|by apply IH].
  constructor; [|by apply IH].
  by destruct (digit_or_comma c Hc).
Qed.

(** Every text the amount pattern captures writes a number. *)
Lemma hundredths_amount ip d1 d2 :
  Forall (λ c, is_digit c || lit "," c = true) ip →
  is_digit d1 = true → is_digit d2 = true →
  is_Some (hundredths (Py.remove_commas
             (string_of_list_ascii (ip ++ ["."%char; d1; d2])))).
Proof.
  intros Hip Hd1 Hd2. unfold hundredths, Py.remove_commas.
  rewrite !list_ascii_of_string_of_list_ascii, filter_app.
  rewrite !filter_cons, filter_nil.
  destruct (decide ("."%char ≠ ","%char)) as [_|Hne]; [|by destruct Hne].
  destruct (decide (d1 ≠ ","%char)) as [_|Hne];
    [|by destruct Hne; apply digit_not_comma].
  destruct (decide (d2 ≠ ","%char)) as [_|Hne];
    [|by destruct Hne; apply digit_not_comma].
  pose proof (filter_commas_digits ip Hip) as Hdigits.
  rewrite split_dot_app
    by (eapply Forall_impl; [exact Hdigits|apply digit_not_dot]).
  simpl.
  destruct (digits_val_is_Some _ 0%N Hdigits) as [i ->]. simpl.
  rewrite Hd1, Hd2. done.
Qed.

(** [float] accepts every text the amount pattern captures. *)
Lemma float_of_amount ip d1 d2 :
  Forall (λ c, is_digit c || lit "," c = true) ip →
  is_digit d1 = true → is_digit d2 = true →
  is_Some (float_of (Py.remove_commas
             (string_of_list_ascii (ip ++ ["."%char; d1; d2])))).
Proof.
  intros Hip Hd1 Hd2. unfold float_of.
  by destruct (hundredths_amount ip d1 d2 Hip Hd1 Hd2) as [h ->].
Qed.

Lemma amounts_is_Some text : is_Some (amounts text).
Proof.
  unfold amounts, findall1. apply mapM_is_Some_2, Forall_forall.
  intros a (m & -> & Hm)%list_elem_of_fmap_1. simpl.
  apply finditer_at in Hm as [j Hm].
  apply amt_group in Hm as (ip & d1 & d2 & -> & Hip & _ & Hd1 & Hd2).
  by apply float_of_amount.
Qed.

Lemma list_of_string_app s1 s2 :
  list_ascii_of_string (s1 +:+ s2)
  = list_ascii_of_string s1 ++ list_ascii_of_string s2.
Proof. induction s1 as [|c s1 IH]; simpl; [done|]. by rewrite IH. Qed.

Lemma string_of_uint_digits u :
  Forall (λ c, is_digit c = true) (list_ascii_of_string (NilEmpty.string_of_uint u)).
Proof. induction u; simpl; by constructor. Qed.

Lemma nilzero_digits u :
  Forall (λ c, is_digit c = true) (list_ascii_of_string (NilZero.string_of_uint u))
  ∧ list_ascii_of_string (NilZero.string_of_uint u) ≠ [].
Proof.
  split.
  - destruct u; try apply string_of_uint_digits. simpl. by constructor.
  - by destruct u.
Qed.

Lemma is_digit_of_N k : (k < 10)%N → is_digit (ascii_of_N (48 + k)) = true.
Proof.
  intros Hk. unfold is_digit, in_range, code.
  rewrite N_ascii_embedding by lia.
  apply andb_true_iff. split; apply N.leb_le; lia.
Qed.

(** Hundredths written out are decimal text with two fractional
    digits. *)
Lemma print_hundredths_two_decimal cents :
  two_decimal (print_hundredths cents) = true.
Proof.
  unfold two_decimal, print_hundredths. rewrite list_of_string_app.
  destruct (nilzero_digits (N.to_uint (cents / 100))) as [Hdig Hne].
  change (list_ascii_of_string ("." +:+ two_digits (cents mod 100)))
    with ("."%char :: list_ascii_of_string (two_digits (cents mod 100))).
  rewrite split_dot_app
    by (eapply Forall_impl; [exact Hdig|apply digit_not_dot]).
  assert ((cents mod 100) / 10 < 10)%N as H1.
  { apply N.Div0.div_lt_upper_bound.
    pose proof (N.mod_upper_bound cents 100). lia. }
  assert ((cents mod 100) mod 10 < 10)%N as H2 by (apply N.mod_upper_bound; lia).
  unfold two_digits. simpl.
  rewrite (is_digit_of_N _ H1), (is_digit_of_N _ H2).
  rewrite bool_decide_eq_true_2 by done.
  rewrite (proj2 (forallb_forall _ _)).
  - done.
  - intros c Hc. eapply Forall_forall in Hdig; [exact Hdig|].
    by apply list_elem_of_In.
Qed.

(** *** Doubles *)

Section Doubles.
Local Open Scope N_scope.

Lemma round_even_bounds num den :
  0 < den →
  2 * (round_even num den * den) ≤ 2 * num + den
  ∧ 2 * num ≤ 2 * (round_even num den * den) + den.
Proof.
  intros Hden. unfold round_even.
  pose proof (N.div_mod' num den) as Hdm.
  pose proof (N.mod_lt num den) as Hlt.
  set (q := num / den) in *. set (r := num mod den) in *.
  assert (r < den) as Hr by (apply Hlt; lia). clear Hlt.
  rewrite (N.mul_comm den q) in Hdm.
  destruct (N.ltb_spec (2 * r) den) as [H1|H1].
  - lia.
  - destruct (N.ltb_spec den (2 * r)) as [H2|H2].
    + rewrite N.mul_add_distr_r. lia.
    + destruct (N.even q); [lia|]. rewrite N.mul_add_distr_r. lia.
Qed.


Lemma pow2_pos s : 0 < 2 ^ s.
Proof. apply N.neq_0_lt_0, N.pow_nonzero. lia. Qed.

(** Around a number of [h] hundredths that is below [2^b], the spacing
    of the doubles leaves 53 bits. *)
Lemma spacing_hundredths h b :
  0 < h → h < 100 * 2 ^ b →
  1015 ≤ spacing h 100 ∧ spacing h 100 + 53 ≤ b + 1074
  ∧ h * 2 ^ 1074 < 100 * 2 ^ (spacing h 100 + 53).
Proof.
  intros Hpos Hlt. unfold spacing.
  set (x := h * 2 ^ 1074).
  assert (2 ^ 1074 = 128 * 2 ^ 1067) as HU.
  { change 1074 with (7 + 1067). by rewrite N.pow_add_r. }
  pose proof (pow2_pos 1067) as HP.
  assert (2 ^ 1067 ≤ x / 100) as Hlo.
  { apply N.div_le_lower_bound; [lia|]. unfold x. rewrite HU. nia. }
  assert (x / 100 < 2 ^ (b + 1074)) as Hhi.
  { apply N.Div0.div_lt_upper_bound. unfold x. rewrite N.pow_add_r.
    pose proof (pow2_pos 1074). pose proof (pow2_pos b). nia. }
  assert (0 < x / 100) as Hx0 by lia.
  pose proof (N.log2_le_mono _ _ Hlo) as Hl1. rewrite N.log2_pow2 in Hl1 by lia.
  apply N.log2_lt_pow2 in Hhi; [|done].
  split; [lia|]. split; [lia|].
  replace (N.log2 (x / 100) - 52 + 53) with (N.succ (N.log2 (x / 100))) by lia.
  destruct (N.log2_spec (x / 100) Hx0) as [_ Hup].
  set (K := 2 ^ N.succ (N.log2 (x / 100))) in *.
  destruct (N.lt_ge_cases x (100 * K)) as [|Hge]; [done|].
  apply N.div_le_lower_bound in Hge; lia.
Qed.


(** A number below 2^1023 gives a finite double. *)
Lemma to_double_finite h : h < 100 * 2 ^ 1023 → to_double h 100 < inf.
Proof.
  intros Hlt. destruct (N.eq_dec h 0) as [->|Hne]; [by vm_compute|].
  destruct (spacing_hundredths h 1023) as (_ & Hs & Hx); [lia|done|].
  unfold to_double. cbv zeta.
  set (s := spacing h 100) in *. set (x := h * 2 ^ 1074) in *.
  destruct (round_even_bounds x (100 * 2 ^ s)) as [Hm _].
  { pose proof (pow2_pos s). lia. }
  set (m := round_even x (100 * 2 ^ s)) in *.
  assert (m * 2 ^ s < inf) as Hfin;
    [|by destruct (N.leb_spec inf (m * 2 ^ s)); lia].
  rewrite N.pow_add_r in Hx.
  pose proof (pow2_pos s) as Ht. set (t := 2 ^ s) in *.
  assert (m ≤ 2 ^ 53) as Hm53.
  { apply N.lt_succ_r. apply (N.mul_lt_mono_pos_r (100 * t)); [lia|].
    rewrite N.mul_succ_l. lia. }
  assert (t ≤ 2 ^ 2044) as Ht'.
  { apply N.pow_le_mono_r; lia. }
  apply N.le_lt_trans with (2 ^ 53 * 2 ^ 2044).
  - by apply N.mul_le_mono.
  - by vm_compute.
Qed.


(** What the formatting writes: decimal text with two fractional digits
    for a finite double, and [inf] for infinity. *)
Lemma fmt2_two_decimal x : x < inf → two_decimal (fmt2 x) = true.
Proof.
  intros Hx. unfold fmt2. destruct (N.leb_spec inf x); [lia|].
  apply print_hundredths_two_decimal.
Qed.

Lemma fmt2_inf x : inf ≤ x → fmt2 x = "inf"%string.
Proof. intros Hx. unfold fmt2. by destruct (N.leb_spec inf x); [|lia]. Qed.

End Doubles.

Lemma lstrip_no_space l :
  Forall (λ c, is_space c = false) l → Py.lstrip_l l = l.
Proof.
  destruct l as [|c l]; [done|]. intros [Hc _]%Forall_cons.
  simpl. by rewrite Hc.
Qed.

Lemma strip_no_space cs :
  Forall (λ c, is_space c = false) cs →
  Py.strip (string_of_list_ascii cs) = string_of_list_ascii cs.
Proof.
  intros Hall. unfold Py.strip.
  rewrite list_ascii_of_string_of_list_ascii, (lstrip_no_space cs Hall).
  rewrite lstrip_no_space by (by apply Forall_reverse).
  by rewrite reverse_involutive.
Qed.

Lemma label_token_no_space c : label_token_char c = true → is_space c = false.
Proof.
  destruct c as [[] [] [] [] [] [] [] []]; vm_compute; congruence.
Qed.

(** *** The largest and the second-largest *)

Lemma foldl_max_spec l x :
  (foldl N.max x l = x ∨ foldl N.max x l ∈ l)
  ∧ (x ≤ foldl N.max x l)%N
  ∧ ∀ y, y ∈ l → (y ≤ foldl N.max x l)%N.
Proof.
  revert x. induction l as [|a l IH]; intros x; simpl.
  - split; [by left|]. split; [lia|]. by intros y ?%elem_of_nil.
  - destruct (IH (N.max x a)) as (Hin & Hle & Hall).
    split; [|split].
    + destruct Hin as [Heq|Hin]; [|right; by right].
      rewrite Heq. destruct (N.max_spec x a) as [[_ ->]|[_ ->]];
        [right; by left|by left].
    + lia.
    + intros y [->|Hy]%elem_of_cons; [lia|by apply Hall].
Qed.

Lemma py_max_spec nums :
  nums ≠ [] → py_max nums ∈ nums ∧ ∀ y, y ∈ nums → (y ≤ py_max nums)%N.
Proof.
  destruct nums as [|x l]; [done|]. intros _. simpl.
  destruct (foldl_max_spec l x) as (Hin & Hle & Hall). split.
  - destruct Hin as [->|Hin]; [by left|by right].
  - intros y [->|Hy]%elem_of_cons; [done|by apply Hall].
Qed.

Lemma py_max_unique nums m :
  m ∈ nums → (∀ y, y ∈ nums → (y ≤ m)%N) → py_max nums = m.
Proof.
  intros Hin Hall.
  assert (nums ≠ []) as Hne by (intros ->; by apply elem_of_nil in Hin).
  destruct (py_max_spec nums Hne) as [Hmax Hbound].
  apply N.le_antisymm; [by apply Hall|by apply Hbound].
Qed.

Lemma insert_desc_perm x l : insert_desc x l ≡ₚ x :: l.
Proof.
  induction l as [|y l IH]; simpl; [done|].
  destruct (y <? x)%N; [done|]. rewrite IH. apply Permutation_swap.
Qed.

Lemma sorted_desc_perm nums : sorted_desc nums ≡ₚ nums.
Proof.
  induction nums as [|x l IH]; simpl; [done|].
  rewrite insert_desc_perm. by constructor.
Qed.

Lemma insert_desc_descending x l :
  descending l → descending (insert_desc x l).
Proof.
  induction l as [|y l IH]; intros Hd; simpl; [done|].
  destruct (N.ltb_spec y x) as [Hlt|Hge].
  - split; [lia|done].
  - destruct l as [|z l]; simpl.
    + split; [lia|done].
    + destruct Hd as [Hzy Hd]. specialize (IH Hd). simpl in IH.
      destruct (N.ltb_spec z x) as [Hlt|Hge']; (split; [lia|done]).
Qed.

Lemma sorted_desc_descending nums : descending (sorted_desc nums).
Proof.
  induction nums as [|x l IH]; simpl; [done|]. by apply insert_desc_descending.
Qed.

Lemma descending_head a l :
  descending (a :: l) → ∀ y, y ∈ l → (y ≤ a)%N.
Proof.
  revert a. induction l as [|b l IH]; intros a Hd y Hy.
  - by apply elem_of_nil in Hy.
  - destruct Hd as [Hba Hd].
    apply elem_of_cons in Hy as [->|Hy]; [done|].
    specialize (IH b Hd y Hy). lia.
Qed.

Lemma remove_one_perm x l : x ∈ l → l ≡ₚ x :: remove_one x l.
Proof.
  induction l as [|y l IH]; intros Hin; [by apply elem_of_nil in Hin|].
  simpl. destruct (N.eqb_spec x y) as [->|Hne]; [done|].
  apply elem_of_cons in Hin as [->|Hin]; [done|].
  rewrite (IH Hin) at 1. apply Permutation_swap.
Qed.

(** The element at index 1 of the descending sort is the second-largest,
    positions counted apart, and the one at index 0 the largest. *)
Lemma sorted_desc_second nums :
  2 ≤ length nums →
  sorted_desc nums !! 0 = Some (py_max nums)
  ∧ sorted_desc nums !! 1 = Some (second_largest nums).
Proof.
  intros Hlen.
  pose proof (sorted_desc_perm nums) as Hperm.
  pose proof (sorted_desc_descending nums) as Hdesc.
  destruct (sorted_desc nums) as [|a [|b rest]] eqn:Hs;
    try (apply Permutation_length in Hperm; simpl in Hperm; lia).
  assert (py_max nums = a) as Hmax.
  { apply py_max_unique.
    - rewrite <- Hperm. by left.
    - intros y Hy. rewrite <- Hperm in Hy.
      apply elem_of_cons in Hy as [->|Hy]; [done|].
      by apply (descending_head a (b :: rest)). }
  split; [by rewrite Hmax|]. simpl. f_equal. symmetry.
  unfold second_largest. rewrite Hmax.
  assert (remove_one a nums ≡ₚ b :: rest) as Hrest.
  { apply (Permutation_cons_inv (a := a)).
    rewrite <- remove_one_perm; [by symmetry|].
    rewrite <- Hperm. by left. }
  apply py_max_unique.
  - rewrite Hrest. by left.
  - intros y Hy. rewrite Hrest in Hy.
    apply elem_of_cons in Hy as [->|Hy]; [done|].
    destruct Hdesc as [_ Hdesc]. by apply (descending_head b rest).
Qed.



(** ** The de-duplication *)

Section Dedup.
Implicit Types (seen : gset (string * string)) (rs unique : list invoice_record).

Lemma foldl_dedup_step seen unique rs :
  (foldl dedup_step (seen, unique) rs).2 = unique ++ dedup_from seen rs.
Proof.
  revert seen unique. induction rs as [|r rs IH]; intros seen unique; simpl.
  - by rewrite app_nil_r.
  - destruct (decide (key r ∈ seen)); rewrite IH; [done|].
    by rewrite <- app_assoc.
Qed.

Lemma deduplicate_dedup_from rs : deduplicate rs = dedup_from ∅ rs.
Proof. unfold deduplicate. by rewrite foldl_dedup_step. Qed.

Lemma dedup_from_sublist seen rs : sublist (dedup_from seen rs) rs.
Proof.
  revert seen. induction rs as [|r rs IH]; intros seen; simpl; [constructor|].
  destruct (decide (key r ∈ seen)); by constructor.
Qed.

Lemma dedup_from_fresh seen rs r :
  r ∈ dedup_from seen rs → (key r ∉ seen).
Proof.
  revert seen. induction rs as [|r' rs IH]; intros seen; simpl.
  - intros Hin. by apply elem_of_nil in Hin.
  - destruct (decide (key r' ∈ seen)) as [|Hnew]; [apply IH|].
    intros Hin. apply elem_of_cons in Hin as [Heq|Hin].
    + by subst.
    + apply IH in Hin. set_solver.
Qed.

Lemma dedup_from_NoDup seen rs : NoDup (key <$> dedup_from seen rs).
Proof.
  revert seen. induction rs as [|r rs IH]; intros seen; simpl; [constructor|].
  destruct (decide (key r ∈ seen)); [done|].
  rewrite fmap_cons. constructor; [|done].
  intros Hin. apply list_elem_of_fmap_1 in Hin.
  destruct Hin as [r' [Hk Hr']].
  apply dedup_from_fresh in Hr'. apply Hr', elem_of_union. left.
  by apply elem_of_singleton.
Qed.

Lemma dedup_from_id seen rs :
  NoDup (key <$> rs) → (∀ r, r ∈ rs → key r ∉ seen) → dedup_from seen rs = rs.
Proof.
  revert seen. induction rs as [|r rs IH]; intros seen Hnd Hseen; simpl; [done|].
  rewrite fmap_cons in Hnd. apply NoDup_cons in Hnd as [Hr Hnd].
  destruct (decide (key r ∈ seen)) as [Hin|_].
  - exfalso. apply (Hseen r); [by left|done].
  - f_equal. apply IH; [done|].
    intros r' Hr'. assert (key r' ∉ seen) as Hfresh.
    { apply Hseen. by right. }
    intros Hu. apply elem_of_union in Hu as [Heq|Hu]; [|done].
    apply elem_of_singleton in Heq.
    apply Hr. rewrite <- Heq. by apply list_elem_of_fmap_2.
Qed.

(** Reading one more record at the end. *)
Lemma dedup_from_snoc seen rs r :
  dedup_from seen (rs ++ [r]) =
  dedup_from seen rs ++
  (if decide (key r ∈ seen ∨ key r ∈ key <$> rs) then [] else [r]).
Proof.
  revert seen. induction rs as [|r' rs IH]; intros seen; simpl.
  - rewrite (decide_ext (key r ∈ seen ∨ key r ∈ []) (key r ∈ seen)).
    + by destruct (decide (key r ∈ seen)).
    + split; [|by left]. intros [?|Hd]; [done|]. by apply elem_of_nil in Hd.
  - destruct (decide (key r' ∈ seen)) as [Hs|Hs]; rewrite IH; simpl.
    + f_equal. apply decide_ext. rewrite elem_of_cons.
      split; [tauto|]. intros [?|[Heq|?]]; [tauto| |tauto].
      left. by rewrite Heq.
    + f_equal. f_equal. apply decide_ext.
      rewrite elem_of_cons, elem_of_union, elem_of_singleton. tauto.
Qed.

End Dedup.

Lemma filter_ext_in {A} (P Q : A → Prop) `{∀ x, Decision (P x)}
    `{∀ x, Decision (Q x)} (l : list A) :
  (∀ x, x ∈ l → P x ↔ Q x) → filter P l = filter Q l.
Proof.
  induction l as [|x l IH]; intros Hext; [done|].
  rewrite !filter_cons.
  assert (filter P l = filter Q l) as ->.
  { apply IH. intros y Hy. apply Hext. by right. }
  assert (P x ↔ Q x) as Hx by (apply Hext; by left).
  destruct (decide (P x)), (decide (Q x)); tauto.
Qed.

Lemma first_occurrences_snoc rs r :
  first_occurrences (rs ++ [r]) =
  first_occurrences rs ++ (if decide (key r ∈ key <$> rs) then [] else [r]).
Proof.
  unfold first_occurrences. rewrite imap_app, filter_app, fmap_app. f_equal.
  - f_equal. apply filter_ext_in.
    intros [i x] Hin. simpl.
    apply list_elem_of_lookup in Hin as [j Hj].
    rewrite list_lookup_imap in Hj.
    destruct (rs !! j) eqn:Hl; simplify_eq/=.
    apply lookup_lt_Some in Hl.
    by rewrite take_app_le by lia.
  - simpl. rewrite Nat.add_0_r. rewrite filter_cons, filter_nil. simpl.
    rewrite take_app_length.
    destruct (decide (key r ∈ key <$> rs)) as [Hd|Hd];
      destruct (decide (key r ∉ key <$> rs)); done.
Qed.

Lemma deduplicate_first_occurrences rs : deduplicate rs = first_occurrences rs.
Proof.
  rewrite deduplicate_dedup_from.
  induction rs as [|r rs IH] using rev_ind; [done|].
  rewrite dedup_from_snoc, first_occurrences_snoc, IH. f_equal.
  apply decide_ext. rewrite elem_of_empty. tauto.
Qed.

Lemma dedup_from_app seen l1 l2 :
  dedup_from seen (l1 ++ l2)
  = dedup_from seen l1 ++ dedup_from (list_to_set (key <$> l1) ∪ seen) l2.
Proof.
  revert seen. induction l1 as [|r l1 IH]; intros seen; simpl.
  - by rewrite union_empty_l_L.
  - destruct (decide (key r ∈ seen)) as [Hin|Hnew]; rewrite IH; simpl.
    + do 2 f_equal. apply set_eq. intros k.
      rewrite !elem_of_union, elem_of_singleton.
      split; [tauto|]. intros [[->|?]|?]; tauto.
    + do 3 f_equal. apply set_eq. intros k.
      rewrite !elem_of_union, elem_of_singleton. tauto.
Qed.

(** A record whose key an earlier record has is as good as absent. *)
Lemma deduplicate_drops_later pre r post :
  key r ∈ key <$> pre →
  deduplicate (pre ++ r :: post) = deduplicate (pre ++ post).
Proof.
  intros Hin. rewrite !deduplicate_dedup_from, !dedup_from_app. f_equal.
  simpl. rewrite decide_True; [done|].
  apply elem_of_union. left. by apply elem_of_list_to_set.
Qed.

(** C6. The list [unique] that [main] builds is the sub-sequence of the
    records whose key [(vendor_number, invoice_number)] has not appeared
    earlier in the input: it keeps the order of the input and holds the
    records as they are, no key occurs in it twice, and a record whose key
    an earlier record has leaves no trace in it. *)
Theorem deduplicate_first_occurrence_wins (records : list invoice_record) :
  deduplicate records = first_occurrences records
  ∧ sublist (deduplicate records) records
  ∧ NoDup (key <$> deduplicate records)
  ∧ ∀ pre r post,
      records = pre ++ r :: post → key r ∈ key <$> pre →
      deduplicate records = deduplicate (pre ++ post).
Proof.
  split; [apply deduplicate_first_occurrences|].
  split; [rewrite deduplicate_dedup_from; apply dedup_from_sublist|].
  split; [rewrite deduplicate_dedup_from; apply dedup_from_NoDup|].
  intros pre r post -> Hin. by apply deduplicate_drops_later.
Qed.

(** Two records with one key and different totals: the first stays. *)
Example deduplicate_same_key_different_total :
  deduplicate [InvoiceRecord "00123456" "INV-1" "500.00" "450.00";
               InvoiceRecord "00123456" "INV-1" "99.00" "99.00"]
  = [InvoiceRecord "00123456" "INV-1" "500.00" "450.00"].
Proof. vm_compute. reflexivity. Qed.

(** C7. De-duplicating what has been de-duplicated changes nothing. *)
Theorem deduplicate_idempotent (records : list invoice_record) :
  deduplicate (deduplicate records) = deduplicate records.
Proof.
  rewrite (deduplicate_dedup_from (deduplicate records)).
  apply dedup_from_id.
  - rewrite deduplicate_dedup_from. apply dedup_from_NoDup.
  - intros r _. apply not_elem_of_empty.
Qed.

(** ** The vendor number and the invoice number *)

Lemma get_truthy_Some d k v :
  Py.get_truthy d k = Some v ↔ d !! k = Some v ∧ v ≠ EmptyString.
Proof.
  unfold Py.get_truthy, Py.truthy. destruct (d !! k) as [x|].
  - destruct (String.eqb_spec x EmptyString) as [->|Hne]; simpl.
    + split; [done|]. by intros [[= <-] Hne].
    + split; [by intros [= <-]|]. by intros [? _].
  - split; [done|]. by intros [? _].
Qed.

Lemma findall0_nil r text : findall0 r text = [] → search r text = None.
Proof.
  intros Hnil. pose proof (findall0_head r text) as Hhead.
  rewrite Hnil in Hhead. by destruct (search r text).
Qed.

Lemma findall0_cons r text fb0 fb :
  findall0 r text = fb0 :: fb → ∃ m, search r text = Some m ∧ group0 m = fb0.
Proof.
  intros Hcons. pose proof (findall0_head r text) as Hhead.
  rewrite Hcons in Hhead. destruct (search r text) as [m|]; [|done].
  exists m. split; [done|]. simpl in Hhead. congruence.
Qed.

(** The padded group of the label pattern is eight digits. *)
Lemma vendor_label_padded text m :
  search vendor_label_re text = Some m →
  String.length (Py.zfill 8 (group1 m)) = 8
  ∧ all_digits (Py.zfill 8 (group1 m)).
Proof.
  intros (Hm & _)%search_leftmost.
  apply vendor_label_group in Hm as (cs & -> & Hall & Hlo & Hhi).
  by apply zfill_digits_spec.
Qed.

Lemma eight_digit_token text m :
  search eight_digit_re text = Some m →
  String.length (group0 m) = 8 ∧ all_digits (group0 m).
Proof.
  intros (Hm & _)%search_leftmost.
  apply eight_digit_whole in Hm as (cs & -> & Hall & Hlen).
  split; [by rewrite string_length_of_list|].
  unfold all_digits. by rewrite list_ascii_of_string_of_list_ascii.
Qed.

(** With no structured field, no text and a path without a base name
    the result is the empty string; [main] passes no such path. *)
Example extract_vendor_number_empty_path :
  extract_vendor_number EmptyString EmptyString ∅ = EmptyString.
Proof. vm_compute. reflexivity. Qed.

(** C1. The label [Account] is not one the label pattern knows: written
    [acct(?:ount)?], it reads [acct] and [acctount] beside [vendor].  On
    the text [Account #: 123456] the label step finds nothing and, with no
    eight-digit token in the text, the result is the base name of the
    message file, where the abbreviated label gives the padded number. *)
Theorem extract_vendor_number_account_label :
  search vendor_label_re "Account #: 123456" = None
  ∧ extract_vendor_number "Account #: 123456" "inbox/mail.eml" ∅ = "mail"
  ∧ extract_vendor_number "Acct #: 123456" "inbox/mail.eml" ∅ = "00123456"
  ∧ extract_vendor_number "Acctount #: 123456" "inbox/mail.eml" ∅
    = "00123456"
  ∧ extract_vendor_number "Vendor #: 123456" "inbox/mail.eml" ∅
    = "00123456".
Proof. vm_compute. repeat split; reflexivity. Qed.

(** X21. The vendor number is, in this order of precedence: the
    structured field [vendor_number] when it is there and not empty, as it
    is; else the group of the leftmost match of the label pattern, padded
    with zeros on the left to eight digits; else the leftmost eight-digit
    token standing between word boundaries; else the base name of the
    file without its extension.  A later step is reached only when all the
    earlier ones gave nothing.  The result is not empty whenever the base
    name of the path is not empty; and the text [Vendor #: 123456] with no
    structured field gives [00123456]. *)
Theorem extract_vendor_number_chain (text source_file : string)
    (donut_json : gmap string string) :
  (∀ v, donut_json !! "vendor_number" = Some v → v ≠ EmptyString →
     extract_vendor_number text source_file donut_json = v)
  ∧ (Py.get_truthy donut_json "vendor_number" = None →
     (∀ m, search vendor_label_re text = Some m →
        extract_vendor_number text source_file donut_json
          = Py.zfill 8 (group1 m)
        ∧ String.length (Py.zfill 8 (group1 m)) = 8
        ∧ all_digits (Py.zfill 8 (group1 m))
        ∧ ∀ j, j < m_start m →
            ¬ matches_at vendor_label_re (list_ascii_of_string text) j)
     ∧ (search vendor_label_re text = None →
        (∀ m, search eight_digit_re text = Some m →
           extract_vendor_number text source_file donut_json = group0 m
           ∧ String.length (group0 m) = 8
           ∧ all_digits (group0 m)
           ∧ ∀ j, j < m_start m →
               ¬ matches_at eight_digit_re (list_ascii_of_string text) j)
        ∧ (search eight_digit_re text = None →
           extract_vendor_number text source_file donut_json
             = Py.splitext_root (Py.basename source_file))))
  ∧ (Py.basename source_file ≠ EmptyString →
     extract_vendor_number text source_file donut_json ≠ EmptyString)
  ∧ extract_vendor_number "Vendor #: 123456" source_file ∅ = "00123456".
Proof.
  split; [|split; [|split]].
  - intros v Hv Hne. unfold extract_vendor_number.
    by rewrite (proj2 (get_truthy_Some _ _ _) (conj Hv Hne)).
  - intros Hnone. unfold extract_vendor_number. rewrite Hnone. split.
    + intros m Hm. rewrite Hm. split; [done|].
      destruct (vendor_label_padded _ _ Hm) as [Hlen Hdig].
      split; [done|]. split; [done|]. by apply search_leftmost.
    + intros Hlabel. rewrite Hlabel. split.
      * intros m Hm. destruct (findall0 eight_digit_re text) as [|fb0 fb] eqn:Hfb.
        { apply findall0_nil in Hfb. congruence. }
        apply findall0_cons in Hfb as (m' & Hm' & <-).
        assert (m' = m) as -> by congruence.
        split; [done|]. destruct (eight_digit_token _ _ Hm) as [Hlen Hdig].
        split; [done|]. split; [done|]. by apply search_leftmost.
      * intros Hnone8.
        destruct (findall0 eight_digit_re text) as [|fb0 fb] eqn:Hfb; [done|].
        apply findall0_cons in Hfb as (m' & Hm' & _). congruence.
  - intros Hbase. unfold extract_vendor_number.
    destruct (Py.get_truthy donut_json "vendor_number") as [v|] eqn:Hget.
    { by apply get_truthy_Some in Hget as [_ Hne]. }
    destruct (search vendor_label_re text) as [m|] eqn:Hlabel.
    { apply string_nonempty_length.
      destruct (vendor_label_padded _ _ Hlabel) as [-> _]. lia. }
    destruct (findall0 eight_digit_re text) as [|fb0 fb] eqn:Hfb.
    { by apply splitext_root_nonempty. }
    apply findall0_cons in Hfb as (m & Hm & <-).
    apply string_nonempty_length.
    destruct (eight_digit_token _ _ Hm) as [-> _]. lia.
  - reflexivity.
Qed.

(** What [re.search] returns lies in the language of the pattern and
    starts at the leftmost position where the pattern matches. *)
Lemma search_first_match r text m :
  search r text = Some m →
  in_lang r (group0 m)
  ∧ ∀ j, j < m_start m → ¬ matches_at r (list_ascii_of_string text) j.
Proof.
  intros (Hm & _ & Hleft)%search_leftmost. split; [|done].
  apply match_at_lang in Hm as (cs & -> & Hl & _).
  unfold in_lang. by rewrite list_ascii_of_string_of_list_ascii.
Qed.

Lemma invoice_label_token text m :
  search invoice_label_re text = Some m →
  Py.strip (group1 m) = group1 m
  ∧ token_of label_token_char 4 (group1 m)
  ∧ String.length (group1 m) ≤ 20.
Proof.
  intros (Hm & _)%search_leftmost.
  apply invoice_label_group in Hm as (cs & -> & Hall & Hlo & Hhi).
  split; [|split].
  - apply strip_no_space.
    eapply Forall_impl; [exact Hall|apply label_token_no_space].
  - unfold token_of.
    by rewrite list_ascii_of_string_of_list_ascii, string_length_of_list.
  - by rewrite string_length_of_list.
Qed.

Lemma date_anchored_token text m :
  search date_anchored_re text = Some m →
  token_of date_token_char 5 (group1 m).
Proof.
  intros (Hm & _)%search_leftmost.
  apply date_anchored_group in Hm as (cs & -> & Hall & Hlo).
  unfold token_of.
  by rewrite list_ascii_of_string_of_list_ascii, string_length_of_list.
Qed.

(** C2, the input on which the claim fails: the word [Invoice] followed
    by a token, with none of the markers [no.], [#], [number].  The
    pattern with the marker optional finds the token; the pattern of the
    program finds nothing, and the resolver falls to the file name. *)
Lemma invoice_label_marker_required :
  group1 <$> search invoice_label_re_spec "Invoice INV-2024" = Some "INV-2024"
  ∧ search invoice_label_re "Invoice INV-2024" = None
  ∧ extract_invoice_number "Invoice INV-2024" "mail.eml" ∅ = "mail".
Proof. vm_compute. done. Qed.

(** The date pattern wants white space between the date and the token. *)
Example date_anchored_needs_space :
  extract_invoice_number "Date 12/31/2024 INV-12345" "mail.eml" ∅ = "INV-12345"
  ∧ extract_invoice_number "Date 12/31/2024INV-12345" "mail.eml" ∅ = "mail".
Proof. vm_compute. done. Qed.

(** C2, amended.  The invoice number is, in this order of precedence: the
    first of the structured fields [invoice_number], [invoice_id],
    [invoice_no] that is there and not empty; else the token of 4 to 20
    letters, digits, hyphens and slashes that follows the word [invoice],
    one of the markers [no] (with or without a dot), [#], [number], which
    is required, and an optional colon or hyphen, white space being free
    between them, case ignored; else the token of 5 or more upper-case
    letters, digits and hyphens that follows a date [d{1,2}/d{1,2}/d{2,4}]
    and at least one white-space character; else a token of two digits,
    three upper-case letters and six or more digits between word
    boundaries; else the base name of the file without its extension.  In
    every pattern step the leftmost match is the one taken. *)
Theorem extract_invoice_number_chain (text source_file : string)
    (donut_json : gmap string string) :
  (∀ v, Py.get_truthy donut_json "invoice_number" = Some v →
     extract_invoice_number text source_file donut_json = v)
  ∧ (Py.get_truthy donut_json "invoice_number" = None →
  (∀ v, Py.get_truthy donut_json "invoice_id" = Some v →
     extract_invoice_number text source_file donut_json = v)
  ∧ (Py.get_truthy donut_json "invoice_id" = None →
  (∀ v, Py.get_truthy donut_json "invoice_no" = Some v →
     extract_invoice_number text source_file donut_json = v)
  ∧ (Py.get_truthy donut_json "invoice_no" = None →
  (∀ m, search invoice_label_re text = Some m →
     extract_invoice_number text source_file donut_json = group1 m
     ∧ token_of label_token_char 4 (group1 m)
     ∧ String.length (group1 m) ≤ 20
     ∧ in_lang invoice_label_re (group0 m)
     ∧ ∀ j, j < m_start m →
         ¬ matches_at invoice_label_re (list_ascii_of_string text) j)
  ∧ (search invoice_label_re text = None →
  (∀ m, search date_anchored_re text = Some m →
     extract_invoice_number text source_file donut_json = group1 m
     ∧ token_of date_token_char 5 (group1 m)
     ∧ in_lang date_anchored_re (group0 m)
     ∧ ∀ j, j < m_start m →
         ¬ matches_at date_anchored_re (list_ascii_of_string text) j)
  ∧ (search date_anchored_re text = None →
  (∀ m, search structural_re text = Some m →
     extract_invoice_number text source_file donut_json = group0 m
     ∧ in_lang structural_re (group0 m)
     ∧ ∀ j, j < m_start m →
         ¬ matches_at structural_re (list_ascii_of_string text) j)
  ∧ (search structural_re text = None →
     extract_invoice_number text source_file donut_json
       = Py.splitext_root (Py.basename source_file))))))).
Proof.
  unfold extract_invoice_number, get_invoice_field.
  split; [by intros v ->|]. intros ->.
  split; [by intros v ->|]. intros ->.
  split; [by intros v ->|]. intros ->.
  split.
  { intros m Hm. rewrite Hm.
    destruct (invoice_label_token _ _ Hm) as (Hstrip & Htok & Hlen).
    destruct (search_first_match _ _ _ Hm) as [Hlang Hleft]. done. }
  intros ->. split.
  { intros m Hm. rewrite Hm.
    pose proof (date_anchored_token _ _ Hm) as Htok.
    destruct (search_first_match _ _ _ Hm) as [Hlang Hleft]. done. }
  intros ->. split.
  - intros m Hm. destruct (findall0 structural_re text) as [|fb0 fb] eqn:Hfb.
    { apply findall0_nil in Hfb. congruence. }
    apply findall0_cons in Hfb as (m' & Hm' & <-).
    assert (m' = m) as -> by congruence.
    destruct (search_first_match _ _ _ Hm) as [Hlang Hleft]. done.
  - intros Hnone.
    destruct (findall0 structural_re text) as [|fb0 fb] eqn:Hfb; [done|].
    apply findall0_cons in Hfb as (m' & Hm' & _). congruence.
Qed.

(** ** The financial details *)

Section Financial.
Context (pdfplumber_open : list Byte.byte → pdf_tables).
Implicit Types (text : string) (pdf_bytes : list Byte.byte).
Implicit Types (donut_json details : gmap string string) (nums : list N).

Lemma details_from_json_total donut_json :
  details_from_json donut_json !! "invoice_total"
  = Py.get_truthy donut_json "invoice_total".
Proof.
  unfold details_from_json.
  destruct (Py.get_truthy donut_json "invoice_total"),
           (Py.get_truthy donut_json "invoice_net_amount"); by simplify_map_eq.
Qed.

Lemma details_from_json_net donut_json :
  details_from_json donut_json !! "invoice_net_amount"
  = Py.get_truthy donut_json "invoice_net_amount".
Proof.
  unfold details_from_json.
  destruct (Py.get_truthy donut_json "invoice_total"),
           (Py.get_truthy donut_json "invoice_net_amount"); by simplify_map_eq.
Qed.

Lemma total_from_text_lookup text details details' nums :
  amounts text = Some nums →
  total_from_text text details = Some details' →
  details' !! "invoice_total"
  = match details !! "invoice_total" with
    | Some jt => Some jt
    | None => match nums with
              | [] => None
              | _ => Some (fmt2 (py_max nums))
              end
    end
  ∧ details' !! "invoice_net_amount" = details !! "invoice_net_amount".
Proof.
  intros Hnums. unfold total_from_text.
  destruct (details !! "invoice_total") as [jt|] eqn:Ht.
  - intros [= <-]. by rewrite Ht.
  - rewrite Hnums. simpl. destruct nums as [|x l]; intros [= <-].
    + by rewrite Ht.
    + by simplify_map_eq.
Qed.

Lemma net_from_text_lookup text details details' nums :
  amounts text = Some nums →
  net_from_text text details = Some details' →
  details' !! "invoice_net_amount"
  = match details !! "invoice_net_amount" with
    | Some jn => Some jn
    | None => net_of_text nums
    end
  ∧ details' !! "invoice_total" = details !! "invoice_total".
Proof.
  intros Hnums. unfold net_from_text.
  destruct (details !! "invoice_net_amount") as [jn|] eqn:Hn.
  - intros [= <-]. by rewrite Hn.
  - rewrite Hnums. simpl. destruct nums as [|x [|y l]].
    + intros [= <-]. by rewrite Hn.
    + intros [= <-]. by simplify_map_eq.
    + destruct (sorted_desc_second (x :: y :: l)) as [_ Hsecond];
        [simpl; lia|].
      rewrite Hsecond. simpl. intros [= <-]. by simplify_map_eq.
Qed.

Lemma net_from_text_is_Some text details :
  is_Some (net_from_text text details).
Proof.
  unfold net_from_text.
  destruct (details !! "invoice_net_amount"); [done|].
  destruct (amounts_is_Some text) as [nums ->]. simpl.
  destruct nums as [|x [|y l]]; [done|done|].
  destruct (sorted_desc_second (x :: y :: l)) as [_ ->]; [simpl; lia|]. done.
Qed.

Lemma total_from_text_is_Some text details :
  is_Some (total_from_text text details).
Proof.
  unfold total_from_text.
  destruct (details !! "invoice_total"); [done|].
  destruct (amounts_is_Some text) as [nums ->]. simpl. by destruct nums.
Qed.

Lemma total_from_tables_lookup pdf_bytes details :
  total_from_tables pdfplumber_open pdf_bytes details !! "invoice_total"
  = match details !! "invoice_total" with
    | Some v => Some v
    | None => table_total (pdfplumber_open pdf_bytes)
    end
  ∧ total_from_tables pdfplumber_open pdf_bytes details !! "invoice_net_amount"
    = details !! "invoice_net_amount".
Proof.
  unfold total_from_tables.
  destruct (details !! "invoice_total") as [v|] eqn:Ht; [by rewrite Ht|].
  destruct (table_total (pdfplumber_open pdf_bytes)); [by simplify_map_eq|].
  by rewrite Ht.
Qed.

(** The resolver never raises. *)
Lemma extract_financial_details_is_Some text pdf_bytes donut_json :
  is_Some (extract_financial_details pdfplumber_open text pdf_bytes donut_json).
Proof.
  unfold extract_financial_details.
  destruct (total_from_text_is_Some text (details_from_json donut_json))
    as [d1 ->]. simpl.
  destruct (net_from_text_is_Some text d1) as [d2 ->]. done.
Qed.

(** The two values of the dictionary returned, by source. *)
Lemma extract_financial_details_lookup text pdf_bytes donut_json nums details :
  amounts text = Some nums →
  extract_financial_details pdfplumber_open text pdf_bytes donut_json
    = Some details →
  details !! "invoice_total"
  = match Py.get_truthy donut_json "invoice_total" with
    | Some jt => Some jt
    | None => match nums with
              | [] => table_total (pdfplumber_open pdf_bytes)
              | _ => Some (fmt2 (py_max nums))
              end
    end
  ∧ details !! "invoice_net_amount"
    = match Py.get_truthy donut_json "invoice_net_amount" with
      | Some jn => Some jn
      | None => net_of_text nums
      end.
Proof.
  intros Hnums. unfold extract_financial_details.
  destruct (total_from_text text (details_from_json donut_json))
    as [d1|] eqn:H1; [|done]. simpl.
  destruct (net_from_text text d1) as [d2|] eqn:H2; [|done]. simpl.
  intros [= <-].
  destruct (total_from_text_lookup _ _ _ _ Hnums H1) as [Ht1 Hn1].
  destruct (net_from_text_lookup _ _ _ _ Hnums H2) as [Hn2 Ht2].
  destruct (total_from_tables_lookup pdf_bytes d2) as [Ht3 Hn3].
  rewrite Ht3, Hn3, Hn2, Ht2, Hn1, Ht1.
  rewrite details_from_json_total, details_from_json_net. split; [|done].
  destruct (Py.get_truthy donut_json "invoice_total"); [done|].
  by destruct nums.
Qed.

(** What [float] makes of a captured amount: the double nearest to the
    number written, which below 2^46 is printed as it was written. *)
Lemma float_of_hundredths a x :
  float_of a = Some x ↔ ∃ h, hundredths a = Some h ∧ x = to_double h 100.
Proof.
  unfold float_of. destruct (hundredths a) as [h|]; simpl.
  - split; [intros [= <-]; by exists h|]. by intros (? & [= <-] & ->).
  - split; [done|]. by intros (? & ? & _).
Qed.



End Financial.

(** *** The table fallback *)

Lemma accepts_Some cell v :
  accepts cell = Some v ↔
  ∃ last, cell = Some last ∧ last ≠ EmptyString
          ∧ is_Some (match_ cell_amount_re last)
          ∧ v = Py.remove_commas last.
Proof.
  unfold accepts, Py.truthy. split.
  - destruct cell as [last|]; [|done].
    destruct (String.eqb_spec last EmptyString) as [->|Hne]; [done|]. simpl.
    destruct (bool_decide (is_Some (match_ cell_amount_re last))) eqn:Hm;
      [|done].
    intros [= <-]. exists last. by apply bool_decide_eq_true in Hm.
  - intros (last & -> & Hne & Hm & ->).
    destruct (String.eqb_spec last EmptyString) as [->|_]; [done|]. simpl.
    by rewrite bool_decide_eq_true_2.
Qed.

(** A cell that passes the test begins with an amount: digits and commas,
    a dot, two digits. *)
Lemma match_cell_amount last :
  is_Some (match_ cell_amount_re last) →
  ∃ ip d1 d2 rest,
    list_ascii_of_string last = ip ++ ["."%char; d1; d2] ++ rest
    ∧ Forall (λ c, is_digit c || lit "," c = true) ip ∧ 1 ≤ length ip
    ∧ is_digit d1 = true ∧ is_digit d2 = true.
Proof.
  intros [m Hm]. unfold match_ in Hm.
  assert (match_at cell_amount_re (list_ascii_of_string last) 0 = Some m)
    as Hat by (by unfold match_at; rewrite take_0, drop_0).
  apply match_at_lang in Hat as (cs & _ & Hl & _ & _ & Hdrop).
  rewrite drop_0 in Hdrop. cbn [lang cell_amount_re plus times] in Hl.
  destruct Hl as (ip & tl & -> & (Hip & Hlen & _) & (dot & fp & -> &
                  (c & -> & Hdot) & (Hfp & Hlo & Hhi))).
  specialize (Hhi 2 eq_refl).
  destruct fp as [|d1 [|d2 [|? ?]]]; simpl in Hlo, Hhi; try lia.
  apply Forall_cons in Hfp as [Hd1 Hfp]. apply Forall_cons in Hfp as [Hd2 _].
  unfold lit in Hdot. apply Ascii.eqb_eq in Hdot as <-.
  exists ip, d1, d2, (drop (0 + length (ip ++ ["."%char; d1; d2]))
                        (list_ascii_of_string last)).
  split; [|done]. rewrite Hdrop at 1. by rewrite <- !app_assoc.
Qed.

(** The loop stops at the first page whose cell passes the test, having
    passed over the pages before it. *)
Lemma scan_pages_Some pages v :
  scan_pages pages = Some v ↔
  ∃ i t0 rest cell,
    pages !! i = Some (Some (t0 :: rest))
    ∧ bottom_right t0 = Some cell ∧ accepts cell = Some v
    ∧ ∀ j page, j < i → pages !! j = Some page → passed_over page.
Proof.
  split.
  - induction pages as [|[[|t0 rest]|] pages IH]; simpl; [done| | |done].
    + intros (i & t & r & cell & Hi & Hb & Ha & Hbefore)%IH.
      exists (S i), t, r, cell. repeat split; try done.
      intros [|j] page Hj Hpage; simpl in Hpage.
      * injection Hpage as <-. by left.
      * apply (Hbefore j); [lia|done].
    + destruct (bottom_right t0) as [cell|] eqn:Hb; [|done].
      destruct (accepts cell) as [v'|] eqn:Ha.
      * intros [= ->]. exists 0, t0, rest, cell. repeat split; try done.
        intros j page Hj. lia.
      * intros (i & t & r & cell' & Hi & Hb' & Ha' & Hbefore)%IH.
        exists (S i), t, r, cell'. repeat split; try done.
        intros [|j] page Hj Hpage; simpl in Hpage.
        -- injection Hpage as <-. right. by exists t0, rest, cell.
        -- apply (Hbefore j); [lia|done].
  - intros (i & t0 & rest & cell & Hi & Hb & Ha & Hbefore).
    revert pages Hi Hbefore. induction i as [|i IH]; intros pages Hi Hbefore.
    + destruct pages as [|page pages]; [done|]. simpl in Hi.
      injection Hi as ->. simpl. by rewrite Hb, Ha.
    + destruct pages as [|page pages]; [done|]. simpl in Hi.
      assert (scan_pages pages = Some v) as Hrest.
      { apply IH; [done|]. intros j pg Hj Hpg. apply (Hbefore (S j)); [lia|done]. }
      destruct (Hbefore 0 page) as [->|(t & r & c & -> & Hb' & Ha')];
        [lia|done| |]; simpl; [done|].
      by rewrite Hb', Ha'.
Qed.


(** A page on which the extraction raises, or an empty first table, ends
    the scan: the amount on the page after it is not read. *)
Example table_fallback_stops_at_exception :
  table_total (Some [None; Some [[[Some "Total"; Some "5.00"]]]]) = None
  ∧ table_total (Some [Some [[]]; Some [[[Some "Total"; Some "5.00"]]]])
    = None
  ∧ table_total (Some [Some []; Some [[[Some "Total"; Some "5.00"]]]])
    = Some "5.00".
Proof. vm_compute. done. Qed.



(** *** The form of the values *)

(** C5, the input on which the claim fails: a total supplied by the
    structured model is returned as it is, whatever its form. *)
Lemma structured_total_kept_verbatim :
  (λ d, d !! "invoice_total")
    <$> extract_financial_details no_tables EmptyString []
          {[ "invoice_total" := "N/A" ]}
  = Some (Some "N/A")
  ∧ two_decimal "N/A" = false.
Proof. vm_compute. done. Qed.

(** A table cell is returned without its commas and otherwise as it is:
    what follows the amount stays. *)
Example table_cell_kept_as_text :
  table_total (Some [Some [[[Some "1,234.567 USD"]]]]) = Some "1234.567 USD".
Proof. vm_compute. reflexivity. Qed.

(** An amount too large for a double is read as infinity and printed
    as [inf]. *)
Example text_scan_overflow :
  String.length huge_amount = 314
  ∧ (λ d, (d !! "invoice_total", d !! "invoice_net_amount"))
      <$> extract_financial_details no_tables huge_amount [] ∅
    = Some (Some "inf", Some "inf")
  ∧ two_decimal "inf" = false.
Proof. vm_compute. repeat split; reflexivity. Qed.

(** The doubles of a text whose amounts are all below 2^1023 are
    finite. *)
Lemma amounts_finite text nums :
  amounts text = Some nums → finite_amounts text →
  Forall (λ x, (x < inf)%N) nums.
Proof.
  unfold amounts, finite_amounts. intros Hnums Hfin.
  apply mapM_Some_1 in Hnums.
  induction Hnums as [|a x l nums Hx _ IH]; [constructor|].
  apply Forall_cons in Hfin as [(h & Hh & Hlt) Hfin].
  constructor; [|by apply IH].
  apply float_of_hundredths in Hx as (h' & Hh' & ->).
  assert (h' = h) as -> by congruence. by apply to_double_finite.
Qed.

(** What the text scan gives for the net amount is one of the doubles of
    the text, printed. *)
Lemma net_of_text_elem nums v :
  net_of_text nums = Some v → ∃ x, x ∈ nums ∧ v = fmt2 x.
Proof.
  unfold net_of_text. destruct nums as [|x [|y l]]; [done| |].
  - intros [= <-]. exists x. split; [by left|done].
  - intros [= <-]. exists (second_largest (x :: y :: l)). split; [|done].
    destruct (sorted_desc_second (x :: y :: l)) as [_ Hsecond];
      [simpl; lia|].
    apply list_elem_of_lookup_2 in Hsecond.
    by rewrite (sorted_desc_perm (x :: y :: l)) in Hsecond.
Qed.

(** C5, amended.  The resolver never raises: every amount the pattern
    finds converts, and what the pattern does not match is left out
    without a report.  A value the text scan gives is one of the doubles
    read from the text, printed: decimal text with exactly two fractional
    digits when the double is finite, as it is whenever the amounts of
    the text are below 2^1023, and [inf] when the amount is too large for
    a double.  A value the structured model supplies is returned as it
    is. *)
Theorem financial_details_format (pdfplumber_open : list Byte.byte → pdf_tables)
    (text : string) (pdf_bytes : list Byte.byte)
    (donut_json : gmap string string) :
  ∃ nums details,
    amounts text = Some nums
    ∧ extract_financial_details pdfplumber_open text pdf_bytes donut_json
      = Some details
    ∧ (finite_amounts text → Forall (λ x, (x < inf)%N) nums)
    ∧ (∀ v, Py.get_truthy donut_json "invoice_total" = None → nums ≠ [] →
         details !! "invoice_total" = Some v →
         ∃ x, x ∈ nums ∧ v = fmt2 x
              ∧ ((x < inf)%N → two_decimal v = true)
              ∧ ((inf ≤ x)%N → v = "inf"))
    ∧ (∀ v, Py.get_truthy donut_json "invoice_net_amount" = None →
         details !! "invoice_net_amount" = Some v →
         ∃ x, x ∈ nums ∧ v = fmt2 x
              ∧ ((x < inf)%N → two_decimal v = true)
              ∧ ((inf ≤ x)%N → v = "inf"))
    ∧ (∀ jt, Py.get_truthy donut_json "invoice_total" = Some jt →
         details !! "invoice_total" = Some jt)
    ∧ (∀ jn, Py.get_truthy donut_json "invoice_net_amount" = Some jn →
         details !! "invoice_net_amount" = Some jn).
Proof.
  destruct (amounts_is_Some text) as [nums Hnums].
  destruct (extract_financial_details_is_Some pdfplumber_open
              text pdf_bytes donut_json) as [details Hdetails].
  exists nums, details. split; [done|]. split; [done|].
  destruct (extract_financial_details_lookup _ _ _ _ _ _ Hnums Hdetails)
    as [Htotal Hnet].
  split; [by apply amounts_finite|].
  split; [|split; [|split]].
  - intros v Hnone Hne. rewrite Htotal, Hnone.
    destruct (py_max_spec nums Hne) as [Hin _].
    destruct nums; [done|]. intros [= <-].
    eexists. split; [exact Hin|]. split; [done|].
    split; [apply fmt2_two_decimal|apply fmt2_inf].
  - intros v Hnone. rewrite Hnet, Hnone.
    intros (x & Hin & ->)%net_of_text_elem.
    exists x. split; [done|]. split; [done|].
    split; [apply fmt2_two_decimal|apply fmt2_inf].
  - intros jt Hjt. by rewrite Htotal, Hjt.
  - intros jn Hjn. by rewrite Hnet, Hjn.
Qed.

(** ** The rows written *)

Lemma row_pairs_lookup records a i rec :
  records !! i = Some rec →
  row_pairs records a !! (2 * i) = Some (header_row rec a)
  ∧ row_pairs records a !! (2 * i + 1) = Some (detail_row rec a).
Proof.
  revert i. induction records as [|r records IH]; intros i Hi; [done|].
  destruct i as [|i]; simpl in Hi.
  - by injection Hi as ->.
  - destruct (IH i Hi) as [Hh Hd].
    replace (2 * S i) with (S (S (2 * i))) by lia. done.
Qed.

Lemma row_pairs_length records a :
  length (row_pairs records a) = 2 * length records.
Proof.
  induction records as [|r records IH]; [done|].
  change (row_pairs (r :: records) a)
    with (header_row r a :: detail_row r a :: row_pairs records a).
  simpl. rewrite IH. lia.
Qed.

Lemma row_pairs_width records a :
  Forall (λ row, length row = 14) (row_pairs records a).
Proof.
  induction records as [|r records IH]; [constructor|].
  change (row_pairs (r :: records) a)
    with (header_row r a :: detail_row r a :: row_pairs records a).
  by repeat constructor.
Qed.

(** C8, the input on which the claim fails: for one record three rows are
    written, the first being the column titles, not the row pair alone. *)
Lemma write_munis_csv_title_row :
  write_munis_csv [example_record] example_args
    ≠ row_pairs [example_record] example_args
  ∧ length (write_munis_csv [example_record] example_args) = 3
  ∧ head (write_munis_csv [example_record] example_args) = Some title_row.
Proof. split; [|done]. intros Heq. by apply (f_equal length) in Heq. Qed.

(** C8, amended.  The rows written are one row of column titles and then,
    for each record in order, two rows: a row of type 1 and a row of type
    2 with the columns in the fixed order, both with the vendor number and
    the invoice number of the record, all other values taken as they are
    from the configuration.  Every row has fourteen columns. *)
Theorem write_munis_csv_rows (records : list invoice_record) (a : args) :
  write_munis_csv records a = title_row :: row_pairs records a
  ∧ length (write_munis_csv records a) = 1 + 2 * length records
  ∧ Forall (λ row, length row = 14) (write_munis_csv records a)
  ∧ ∀ i rec, records !! i = Some rec →
      write_munis_csv records a !! (1 + 2 * i)
      = Some ["1"; vendor_number rec; remit_number a; invoice_number rec;
              invoice_date a; invoice_due_date a;
              invoice_total rec; invoice_net_amount rec;
              po_fiscal_year a; po_number a;
              include_documentation a; separate_check a;
              contract_number a; invoice_description a]
      ∧ write_munis_csv records a !! (2 + 2 * i)
        = Some ["2"; vendor_number rec; sequence_start a; invoice_number rec;
                default_org a; default_object a; project a;
                invoice_total rec; po_line_number a;
                EmptyString; EmptyString; EmptyString; EmptyString;
                detail_description a].
Proof.
  split; [done|]. split; [|split].
  - unfold write_munis_csv. simpl. f_equal. apply row_pairs_length.
  - constructor; [done|]. apply row_pairs_width.
  - intros i rec Hi. destruct (row_pairs_lookup _ a _ _ Hi) as [Hh Hd].
    split.
    + exact Hh.
    + replace (2 + 2 * i) with (S (2 * i + 1)) by lia. exact Hd.
Qed.
(** *** One record for each key *)

(** Of the records with a key that has been seen, none is kept. *)
Lemma dedup_from_seen seen rs k :
  k ∈ seen → filter (λ r, key r = k) (dedup_from seen rs) = [].
Proof.
  revert seen. induction rs as [|r rs IH]; intros seen Hk; simpl; [done|].
  destruct (decide (key r ∈ seen)) as [Hin|Hnew]; [by apply IH|].
  rewrite filter_cons. destruct (decide (key r = k)) as [Heq|_].
  - by rewrite Heq in Hnew.
  - apply IH, elem_of_union. by right.
Qed.

(** Of the records with a key that has not been seen, the first is kept
    and no other. *)
Lemma dedup_from_one_per_key seen rs k :
  (k ∉ seen) → k ∈ key <$> rs →
  ∃ r, filter (λ r, key r = k) (dedup_from seen rs) = [r]
       ∧ head (filter (λ r, key r = k) rs) = Some r.
Proof.
  revert seen. induction rs as [|r rs IH]; intros seen Hk Hin.
  { by apply elem_of_nil in Hin. }
  rewrite fmap_cons in Hin. cbn [dedup_from]. rewrite (filter_cons _ r rs).
  destruct (decide (key r = k)) as [Heq|Hne].
  - exists r. split; [|done].
    rewrite decide_False by (by rewrite Heq).
    rewrite filter_cons, decide_True by done. f_equal.
    apply dedup_from_seen, elem_of_union. left. by apply elem_of_singleton.
  - apply elem_of_cons in Hin as [Heq|Hin]; [by destruct Hne|].
    destruct (decide (key r ∈ seen)) as [_|Hnew]; [by apply IH|].
    rewrite filter_cons, decide_False by done.
    apply IH; [|done]. intros [Hk'%elem_of_singleton|Hk']%elem_of_union;
      [by destruct Hne|done].
Qed.

(** The records that share a key collapse to one, the first of them. *)
Lemma deduplicate_one_per_key records k :
  k ∈ key <$> records →
  ∃ r, filter (λ r, key r = k) (deduplicate records) = [r]
       ∧ head (filter (λ r, key r = k) records) = Some r.
Proof.
  rewrite deduplicate_dedup_from. apply dedup_from_one_per_key.
  apply not_elem_of_empty.
Qed.

Lemma deduplicate_pair r1 r2 :
  key r2 = key r1 → deduplicate [r1; r2] = [r1].
Proof.
  intros Hk. rewrite deduplicate_dedup_from. simpl.
  rewrite decide_False by apply not_elem_of_empty.
  rewrite decide_True; [done|].
  rewrite Hk. apply elem_of_union. left. by apply elem_of_singleton.
Qed.


(** ** The assembler and the run *)

Section ProgramFacts.
Context (extract_text_from_pdf_bytes : list Byte.byte → option string).
Context (parse_invoice_with_donut :
           list Byte.byte → option (gmap string string)).
Context (pdfplumber_open : list Byte.byte → pdf_tables).
Context (read_eml : string → list mime_part).
Context (isdir : string → bool).
Context (os_walk : string → list (string * list string)).
Context (script_dir : string).

Local Abbreviation record_of :=
  (record_of_payload extract_text_from_pdf_bytes parse_invoice_with_donut
     pdfplumber_open).
Local Abbreviation records_of :=
  (records_of_parts extract_text_from_pdf_bytes parse_invoice_with_donut
     pdfplumber_open).
Local Abbreviation records_from_eml :=
  (extract_records_from_eml extract_text_from_pdf_bytes
     parse_invoice_with_donut pdfplumber_open read_eml).
Local Abbreviation run :=
  (main extract_text_from_pdf_bytes parse_invoice_with_donut pdfplumber_open
     read_eml isdir os_walk script_dir).

(** An attachment gives a record exactly when the text extractor and the
    structured model return, and the two numbers of the record are
    resolved against the path of the message. *)
Lemma record_of_payload_Some eml_path payload rec :
  record_of eml_path payload = Some rec ↔
  ∃ text donut_json details,
    extract_text_from_pdf_bytes payload = Some text
    ∧ parse_invoice_with_donut payload = Some donut_json
    ∧ extract_financial_details pdfplumber_open text payload donut_json
      = Some details
    ∧ rec = {| vendor_number := extract_vendor_number text eml_path donut_json;
               invoice_number :=
                 extract_invoice_number text eml_path donut_json;
               invoice_total :=
                 default EmptyString (details !! "invoice_total");
               invoice_net_amount :=
                 default EmptyString (details !! "invoice_net_amount") |}.
Proof.
  unfold record_of_payload. split.
  - destruct (extract_text_from_pdf_bytes payload) as [text|]; [|done].
    destruct (parse_invoice_with_donut payload) as [donut_json|]; [|done].
    simpl.
    destruct (extract_financial_details pdfplumber_open text payload
                donut_json) as [d|] eqn:Hd; [|done].
    simpl. intros [= <-]. by exists text, donut_json, d.
  - intros (text & donut_json & d & -> & -> & Hd & ->). simpl.
    by rewrite Hd.
Qed.


Lemma records_of_parts_nothing eml_path parts :
  Forall yields_nothing parts → records_of eml_path parts = Some [].
Proof.
  induction 1 as [|part parts Hpart _ IH]; simpl; [done|].
  destruct Hpart as [->|[->| ->]]; [done| |]; by destruct (is_pdf_part part).
Qed.

(** Every record of a message comes from the payload of one of its parts,
    resolved against the path of the message. *)
Lemma records_of_parts_from eml_path parts recs rec :
  records_of eml_path parts = Some recs → rec ∈ recs →
  ∃ part payload, part ∈ parts ∧ get_payload part = Some payload
                  ∧ record_of eml_path payload = Some rec.
Proof.
  revert recs. induction parts as [|part parts IH]; intros recs; simpl.
  - intros [= <-] Hin. by apply elem_of_nil in Hin.
  - assert (records_of eml_path parts = Some recs → rec ∈ recs →
            ∃ part' payload, part' ∈ part :: parts
              ∧ get_payload part' = Some payload
              ∧ record_of eml_path payload = Some rec) as Hskip.
    { intros Hrec Hin. destruct (IH _ Hrec Hin) as (p & b & Hp & Hb & Hr).
      exists p, b. split; [by right|done]. }
    destruct (is_pdf_part part); [|exact Hskip].
    destruct (get_payload part) as [[|b0 bs]|] eqn:Hpayload;
      [exact Hskip| |exact Hskip].
    destruct (record_of eml_path (b0 :: bs)) as [r|] eqn:Hr; [|done].
    simpl. destruct (records_of eml_path parts) as [rs|]; [|done].
    simpl. intros [= <-] [->|Hin]%elem_of_cons.
    + exists part, (b0 :: bs). split; [by left|done].
    + destruct (IH rs eq_refl Hin) as (p & b & Hp & Hb & Hr').
      exists p, b. split; [by right|done].
Qed.

Lemma mapM_all_nil {A B} (f : A → option (list B)) (l : list A) :
  (∀ x, x ∈ l → f x = Some []) →
  ∃ recss, mapM f l = Some recss ∧ concat recss = [].
Proof.
  induction l as [|x l IH]; intros Hall.
  - by exists [].
  - destruct IH as (recss & Hm & Hc).
    { intros y Hy. apply Hall. by right. }
    exists ([] :: recss). split; [|done].
    simpl. rewrite (Hall x) by (by left). simpl. by rewrite Hm.
Qed.

(** C9. When no message is found, or no part of any message found yields
    a record, the run ends in [sys.exit] and nothing is written; where the
    folder exists the message is [No PDF attachments found.]. *)
Theorem main_no_input (a : args) :
  (∀ eml part, eml ∈ eml_files_of os_walk (folder a) →
               part ∈ read_eml eml → yields_nothing part) →
  (∃ msg, run a = SysExit msg)
  ∧ (isdir (folder a) = true → run a = SysExit "No PDF attachments found.").
Proof.
  intros Hnothing.
  assert (isdir (folder a) = true →
          run a = SysExit "No PDF attachments found.") as Hexit.
  { intros Hdir. unfold main. rewrite Hdir. simpl.
    destruct (mapM_all_nil records_from_eml
                (eml_files_of os_walk (folder a))) as (recss & -> & ->);
      [|done].
    intros eml Heml. unfold extract_records_from_eml.
    apply records_of_parts_nothing, Forall_forall.
    intros part Hpart. by eapply Hnothing. }
  split; [|done].
  destruct (isdir (folder a)) eqn:Hdir.
  - eexists. by apply Hexit.
  - unfold main. rewrite Hdir. simpl. by eexists.
Qed.

(** C10. The file name that the two resolvers fall back to is the base
    name of the message file: a record depends on its attachment through
    the payload alone, and both numbers are resolved against the path of
    the message.  So two attachments of one message for which both numbers
    fall through get the same key, the base name twice, and the
    de-duplication collapses them to a single record: of the two alone
    the first is what remains, and in any list of records that holds
    both, exactly one record with that key remains, the first of the
    list that has it, and the later of the two leaves no trace. *)
Theorem filename_fallback_is_message_name
    (eml_path : string) (payload1 payload2 : list Byte.byte)
    (text1 text2 : string) (donut1 donut2 : gmap string string)
    (rec1 rec2 : invoice_record) :
  extract_text_from_pdf_bytes payload1 = Some text1 →
  parse_invoice_with_donut payload1 = Some donut1 →
  extract_text_from_pdf_bytes payload2 = Some text2 →
  parse_invoice_with_donut payload2 = Some donut2 →
  record_of eml_path payload1 = Some rec1 →
  record_of eml_path payload2 = Some rec2 →
  vendor_falls_through text1 donut1 → invoice_falls_through text1 donut1 →
  vendor_falls_through text2 donut2 → invoice_falls_through text2 donut2 →
  key rec1 = (Py.splitext_root (Py.basename eml_path),
              Py.splitext_root (Py.basename eml_path))
  ∧ key rec2 = key rec1
  ∧ deduplicate [rec1; rec2] = [rec1]
  ∧ (∀ pre mid post,
       deduplicate (pre ++ rec1 :: mid ++ rec2 :: post)
       = deduplicate (pre ++ rec1 :: mid ++ post)
       ∧ ∃ r,
           filter (λ r, key r = key rec1)
             (deduplicate (pre ++ rec1 :: mid ++ rec2 :: post)) = [r]
           ∧ head (filter (λ r, key r = key rec1)
                     (pre ++ rec1 :: mid ++ rec2 :: post)) = Some r
           ∧ ((key rec1 ∉ key <$> pre) → r = rec1))
  ∧ (∀ recs rec,
       records_from_eml eml_path = Some recs → rec ∈ recs →
       ∃ part payload,
         part ∈ read_eml eml_path ∧ get_payload part = Some payload
         ∧ record_of eml_path payload = Some rec).
Proof.
  intros Ht1 Hj1 Ht2 Hj2 Hr1 Hr2 (Hv1 & Hl1 & He1) (Hf1 & Hi1 & Hd1 & Hs1)
         (Hv2 & Hl2 & He2) (Hf2 & Hi2 & Hd2 & Hs2).
  assert (∀ payload text donut_json rec,
            extract_text_from_pdf_bytes payload = Some text →
            parse_invoice_with_donut payload = Some donut_json →
            record_of eml_path payload = Some rec →
            vendor_falls_through text donut_json →
            invoice_falls_through text donut_json →
            key rec = (Py.splitext_root (Py.basename eml_path),
                       Py.splitext_root (Py.basename eml_path))) as Hkey.
  { intros payload text donut_json rec Ht Hj Hr (Hv & Hl & He)
           (Hf & Hi & Hd & Hs).
    apply record_of_payload_Some in Hr as (text' & donut' & d & Ht' & Hj'
                                           & _ & ->).
    assert (text' = text) as -> by congruence.
    assert (donut' = donut_json) as -> by congruence.
    unfold key. cbn [vendor_number invoice_number].
    unfold extract_vendor_number, extract_invoice_number.
    rewrite Hv, Hl, Hf, Hi, Hd.
    destruct (findall0 eight_digit_re _) as [|fb0 fb] eqn:Hfb8;
      [|apply findall0_cons in Hfb8 as (m & Hm & _); congruence].
    destruct (findall0 structural_re _) as [|fc0 fc] eqn:Hfbs;
      [|apply findall0_cons in Hfbs as (m & Hm & _); congruence].
    done. }
  assert (key rec1 = (Py.splitext_root (Py.basename eml_path),
                      Py.splitext_root (Py.basename eml_path))) as Hk1.
  { by apply (Hkey payload1 text1 donut1). }
  assert (key rec2 = key rec1) as Hk2.
  { rewrite Hk1. by apply (Hkey payload2 text2 donut2). }
  split; [done|]. split; [done|].
  split; [by apply deduplicate_pair|]. split.
  - intros pre mid post. split.
    + replace (pre ++ rec1 :: mid ++ rec2 :: post)
        with ((pre ++ rec1 :: mid) ++ rec2 :: post)
        by (by rewrite <- app_assoc).
      replace (pre ++ rec1 :: mid ++ post)
        with ((pre ++ rec1 :: mid) ++ post)
        by (by rewrite <- app_assoc).
      apply deduplicate_drops_later.
      rewrite Hk2, fmap_app, fmap_cons.
      apply elem_of_app. right. by left.
    + destruct (deduplicate_one_per_key
                  (pre ++ rec1 :: mid ++ rec2 :: post) (key rec1))
        as (r & Hone & Hhead).
      { rewrite fmap_app, fmap_cons. apply elem_of_app. right. by left. }
      exists r. split; [done|]. split; [done|].
      intros Hpre. rewrite filter_app, filter_cons in Hhead.
      rewrite decide_True in Hhead by done.
      assert (filter (λ r0, key r0 = key rec1) pre = []) as Hnil.
      { destruct (filter (λ r0, key r0 = key rec1) pre) as [|x l] eqn:Hf;
          [done|].
        assert (x ∈ filter (λ r0, key r0 = key rec1) pre) as Hx
          by (rewrite Hf; by left).
        apply list_elem_of_filter in Hx as [Hkx Hx].
        destruct Hpre. rewrite <- Hkx. by apply list_elem_of_fmap_2. }
      rewrite Hnil in Hhead. simpl in Hhead. congruence.
  - intros recs rec. apply records_of_parts_from.
Qed.

End ProgramFacts.

(** ** The claims at concrete inputs *)

(** C9 at a folder whose only message has no attachment. *)
Lemma main_no_input_witness :
  main text_of_bytes no_fields no_tables (λ _, example_plain_parts)
       (λ _, true) example_walk "/opt/munis" example_args
  = SysExit "No PDF attachments found.".
Proof.
  refine (proj2 (main_no_input text_of_bytes no_fields no_tables
                   (λ _, example_plain_parts) (λ _, true) example_walk
                   "/opt/munis" example_args _) eq_refl).
  intros eml part _ Hpart.
  apply list_elem_of_singleton in Hpart. subst part.
  left. vm_compute. reflexivity.
Defined.

(** C10 at the two scans of [example_parts]. *)
Lemma filename_fallback_witness :
  key scan1_record = ("mail", "mail")
  ∧ key scan2_record = key scan1_record
  ∧ deduplicate [scan1_record; scan2_record] = [scan1_record].
Proof.
  pose proof (filename_fallback_is_message_name text_of_bytes no_fields
                no_tables (λ _, example_parts) "inbox/mail.eml"
                (bytes_of_text "Total due $500.00")
                (bytes_of_text "Total due $75.00")
                "Total due $500.00" "Total due $75.00" ∅ ∅
                scan1_record scan2_record) as Hthm.
  destruct Hthm as (Hk1 & Hk2 & Hpair & _).
  - vm_compute. reflexivity.
  - vm_compute. reflexivity.
  - vm_compute. reflexivity.
  - vm_compute. reflexivity.
  - vm_compute. reflexivity.
  - vm_compute. reflexivity.
  - repeat split; vm_compute; reflexivity.
  - repeat split; vm_compute; reflexivity.
  - repeat split; vm_compute; reflexivity.
  - repeat split; vm_compute; reflexivity.
  - split; [exact Hk1|]. split; [exact Hk2|]. exact Hpair.
Defined.

(** The whole run on a folder with the message of [example_parts]: the
    two scans collapse to one record, and a title row and one row pair are
    written. *)
Example main_two_scans :
  main text_of_bytes no_fields no_tables (λ _, example_parts)
       (λ _, true) example_walk "/opt/munis" example_args
  = Wrote "/opt/munis/munis_import.csv"
      [title_row;
       ["1"; "mail"; "0"; "mail"; "11/03/2026"; "12/03/2026";
        "500.00"; "500.00"; EmptyString; EmptyString; EmptyString;
        EmptyString; EmptyString; EmptyString];
       ["2"; "mail"; "1"; "mail"; "11/03/2026"; "12/03/2026"; EmptyString;
        "500.00"; EmptyString; EmptyString; EmptyString; EmptyString;
        EmptyString; EmptyString]].
Proof. vm_compute. reflexivity. Qed.

(** A folder that does not exist. *)
Example main_folder_not_found :
  main text_of_bytes no_fields no_tables (λ _, example_parts)
       (λ _, false) example_walk "/opt/munis" example_args
  = SysExit "Error: folder not found: inbox".
Proof. vm_compute. reflexivity. Qed.

(** The amounts of the examples of the specification. *)
Example text_scan_two_amounts :
  (λ d, (d !! "invoice_total", d !! "invoice_net_amount"))
    <$> extract_financial_details no_tables
          "Subtotal $450.00 Total $500.00" [] ∅
  = Some (Some "500.00", Some "450.00").
Proof. vm_compute. reflexivity. Qed.

Example text_scan_one_amount :
  (λ d, (d !! "invoice_total", d !! "invoice_net_amount"))
    <$> extract_financial_details no_tables "Amount due: $1,234.56" [] ∅
  = Some (Some "1234.56", Some "1234.56").
Proof. vm_compute. reflexivity. Qed.

(** Equal amounts count once for each place they stand at. *)
Example text_scan_equal_amounts :
  (λ d, (d !! "invoice_total", d !! "invoice_net_amount"))
    <$> extract_financial_details no_tables
          "Total $500.00 Paid $500.00 Fee $20.00" [] ∅
  = Some (Some "500.00", Some "500.00").
Proof. vm_compute. reflexivity. Qed.

(** * Further properties *)

(** ** The de-duplication *)

Lemma dedup_from_key_elem seen rs k :
  k ∈ key <$> dedup_from seen rs ↔ (k ∉ seen) ∧ k ∈ key <$> rs.
Proof.
  revert seen. induction rs as [|r rs IH]; intros seen; cbn [dedup_from].
  - rewrite fmap_nil. split; [by intros ?%elem_of_nil|].
    by intros [_ ?%elem_of_nil].
  - destruct (decide (key r ∈ seen)) as [Hin|Hnew].
    + rewrite IH, fmap_cons, elem_of_cons. split; [tauto|].
      intros [Hk [->|?]]; [done|tauto].
    + rewrite !fmap_cons, !elem_of_cons, IH, elem_of_union, elem_of_singleton.
      split.
      * intros [->|[Hk ?]]; [tauto|]. tauto.
      * intros [Hk [->|?]]; [by left|].
        destruct (decide (k = key r)) as [->|Hne]; [by left|]. right. tauto.
Qed.

(** X1. No key is lost: the keys of what is kept are the keys of the
    input. *)
Theorem deduplicate_keeps_every_key (records : list invoice_record)
    (k : string * string) :
  k ∈ key <$> deduplicate records ↔ k ∈ key <$> records.
Proof.
  rewrite deduplicate_dedup_from, dedup_from_key_elem.
  split; [tauto|]. intros Hk. split; [apply not_elem_of_empty|done].
Qed.

Lemma deduplicate_length_le records :
  length (deduplicate records) ≤ length records.
Proof.
  rewrite deduplicate_dedup_from. apply sublist_length, dedup_from_sublist.
Qed.

(** X2. Nothing is dropped exactly when the keys of the input are
    pairwise distinct; in general the output is no longer than the
    input. *)
Theorem deduplicate_unchanged_iff (records : list invoice_record) :
  (deduplicate records = records ↔ NoDup (key <$> records))
  ∧ length (deduplicate records) ≤ length records.
Proof.
  split; [|apply deduplicate_length_le]. split.
  - intros Heq. rewrite <- Heq, deduplicate_dedup_from. apply dedup_from_NoDup.
  - intros Hnd. rewrite deduplicate_dedup_from. apply dedup_from_id; [done|].
    intros r _. apply not_elem_of_empty.
Qed.

(** X3. Records read later never change what the earlier ones gave: the
    output for [l1 ++ l2] is the output for [l1] followed by records of
    [l2], in their order, whose keys do not occur in [l1]. *)
Theorem deduplicate_extends (l1 l2 : list invoice_record) :
  ∃ new,
    deduplicate (l1 ++ l2) = deduplicate l1 ++ new
    ∧ sublist new l2
    ∧ ∀ r, r ∈ new → key r ∉ key <$> l1.
Proof.
  exists (dedup_from (list_to_set (key <$> l1) ∪ ∅) l2).
  split; [|split].
  - by rewrite !deduplicate_dedup_from, dedup_from_app.
  - apply dedup_from_sublist.
  - intros r Hr Hin. apply dedup_from_fresh in Hr. apply Hr.
    apply elem_of_union. left. by apply elem_of_list_to_set.
Qed.

(** ** The financial details *)

Lemma second_largest_bounds nums :
  2 ≤ length nums →
  second_largest nums ∈ nums ∧ (second_largest nums ≤ py_max nums)%N.
Proof.
  intros Hlen. destruct (sorted_desc_second nums Hlen) as [_ Hsnd].
  assert (second_largest nums ∈ nums) as Hin.
  { pose proof (list_elem_of_lookup_2 _ _ _ Hsnd) as Hin.
    by rewrite (sorted_desc_perm nums) in Hin. }
  split; [done|]. apply py_max_spec; [|done]. by destruct nums.
Qed.

(** X4. When the text decides both values, both are floats read from
    amounts that stand in the text, printed, and the float of the net
    amount is never larger than that of the total. *)
Theorem text_net_at_most_total (pdfplumber_open : list Byte.byte → pdf_tables)
    (text : string) (pdf_bytes : list Byte.byte)
    (donut_json : gmap string string) :
  ∃ nums details,
    amounts text = Some nums
    ∧ extract_financial_details pdfplumber_open text pdf_bytes donut_json
      = Some details
    ∧ (Py.get_truthy donut_json "invoice_total" = None →
       Py.get_truthy donut_json "invoice_net_amount" = None →
       nums ≠ [] →
       ∃ t n, details !! "invoice_total" = Some (fmt2 t)
              ∧ details !! "invoice_net_amount" = Some (fmt2 n)
              ∧ (n ≤ t)%N ∧ t ∈ nums ∧ n ∈ nums).
Proof.
  destruct (amounts_is_Some text) as [nums Hnums].
  destruct (extract_financial_details_is_Some pdfplumber_open
              text pdf_bytes donut_json) as [details Hdetails].
  exists nums, details. split; [done|]. split; [done|].
  destruct (extract_financial_details_lookup _ _ _ _ _ _ Hnums Hdetails)
    as [Htotal Hnet].
  intros Ht Hn Hne. rewrite Ht in Htotal. rewrite Hn in Hnet.
  destruct (py_max_spec nums Hne) as [Hmax Hbound].
  destruct nums as [|x [|y l]]; [done| |].
  - exists x, x. repeat split; first [done|lia|by left].
  - destruct (second_largest_bounds (x :: y :: l)) as [Hin Hle]; [simpl; lia|].
    by exists (py_max (x :: y :: l)), (second_largest (x :: y :: l)).
Qed.

Lemma fmt2_nonempty x : fmt2 x ≠ EmptyString.
Proof.
  intros Heq. destruct (N.lt_ge_cases x inf) as [Hlt|Hge].
  - pose proof (fmt2_two_decimal x Hlt) as Htwo. by rewrite Heq in Htwo.
  - by rewrite (fmt2_inf x Hge) in Heq.
Qed.



(** From 2^46 on the doubles are more than a hundredth apart, and what is
    printed can differ from what was written; past the largest double
    the float is infinity. *)
Example amount_printed_rounded :
  fmt2 <$> float_of "70368744177663.99" = Some "70368744177663.99"
  ∧ fmt2 <$> float_of "70368744177664.01" = Some "70368744177664.02"
  ∧ fmt2 <$> float_of (Py.remove_commas "9,007,199,254,740,993.00")
    = Some "9007199254740992.00"
  ∧ print_hundredths 7036874417766401 = "70368744177664.01".
Proof. vm_compute. repeat split; reflexivity. Qed.

Lemma remove_commas_spec s :
  list_ascii_of_string (Py.remove_commas s)
  = filter (λ c, c ≠ ","%char) (list_ascii_of_string s).
Proof. unfold Py.remove_commas. apply list_ascii_of_string_of_list_ascii. Qed.

(** What the table fallback assigns has a dot, no comma, and is not
    empty. *)
Lemma accepts_plain cell v :
  accepts cell = Some v →
  v ≠ EmptyString
  ∧ (","%char ∉ list_ascii_of_string v)
  ∧ "."%char ∈ list_ascii_of_string v.
Proof.
  intros (last & -> & _ & Hm & ->)%accepts_Some.
  apply match_cell_amount in Hm as (ip & d1 & d2 & rest & Hlast & _).
  assert ("."%char ∈ list_ascii_of_string (Py.remove_commas last)) as Hdot.
  { rewrite remove_commas_spec, Hlast. apply list_elem_of_filter.
    split; [done|]. apply elem_of_app. right. by left. }
  split; [|split; [|done]].
  - intros Heq. rewrite Heq in Hdot. by apply elem_of_nil in Hdot.
  - rewrite remove_commas_spec. intros [Hne _]%list_elem_of_filter. done.
Qed.

Lemma scan_pages_accepts pages v :
  scan_pages pages = Some v → ∃ cell, accepts cell = Some v.
Proof. intros (i & t0 & rest & cell & _ & _ & Ha & _)%scan_pages_Some. eauto. Qed.

Lemma table_total_accepts doc v :
  table_total doc = Some v → ∃ cell, accepts cell = Some v.
Proof. destruct doc as [pages|]; [|done]. apply scan_pages_accepts. Qed.

(** X5. A total taken from a table is the cell without its thousands
    separators: it holds no comma, it holds the decimal point, and it is
    not empty. *)
Theorem table_total_plain (doc : pdf_tables) (v : string) :
  table_total doc = Some v →
  v ≠ EmptyString
  ∧ (","%char ∉ list_ascii_of_string v)
  ∧ "."%char ∈ list_ascii_of_string v.
Proof. intros [cell Ha]%table_total_accepts. by eapply accepts_plain. Qed.

Lemma table_total_plain_witness :
  "1234.56" ≠ EmptyString
  ∧ (","%char ∉ list_ascii_of_string "1234.56")
  ∧ "."%char ∈ list_ascii_of_string "1234.56".
Proof. apply (table_total_plain two_page_doc). vm_compute. reflexivity. Defined.

(** The dictionary holds the two keys at most, and no empty value. *)
Lemma extract_financial_details_entries
    (pdfplumber_open : list Byte.byte → pdf_tables) text pdf_bytes
    (donut_json details : gmap string string) k v :
  extract_financial_details pdfplumber_open text pdf_bytes donut_json
    = Some details →
  details !! k = Some v →
  (k = "invoice_total" ∨ k = "invoice_net_amount") ∧ v ≠ EmptyString.
Proof.
  intros Hdetails Hk.
  destruct (amounts_is_Some text) as [nums Hnums].
  destruct (extract_financial_details_lookup _ _ _ _ _ _ Hnums Hdetails)
    as [Htotal Hnet].
  destruct (decide (k = "invoice_total")) as [->|Hk1].
  { split; [by left|]. rewrite Htotal in Hk.
    destruct (Py.get_truthy donut_json "invoice_total") as [jt|] eqn:Hjt.
    - injection Hk as <-. by apply get_truthy_Some in Hjt as [_ ?].
    - destruct nums.
      + apply table_total_accepts in Hk as [cell Ha].
        by apply accepts_plain in Ha as [? _].
      + injection Hk as <-. apply fmt2_nonempty. }
  destruct (decide (k = "invoice_net_amount")) as [->|Hk2].
  { split; [by right|]. rewrite Hnet in Hk.
    destruct (Py.get_truthy donut_json "invoice_net_amount") as [jn|] eqn:Hjn.
    - injection Hk as <-. by apply get_truthy_Some in Hjn as [_ ?].
    - unfold net_of_text in Hk.
      destruct nums as [|x [|y l]]; [done| |];
        injection Hk as <-; apply fmt2_nonempty. }
  exfalso. revert Hdetails Hk. unfold extract_financial_details.
  destruct (total_from_text text (details_from_json donut_json))
    as [d1|] eqn:H1; [|done]. simpl.
  destruct (net_from_text text d1) as [d2|] eqn:H2; [|done]. simpl.
  intros [= <-].
  assert (details_from_json donut_json !! k = None) as H0.
  { unfold details_from_json.
    destruct (Py.get_truthy donut_json "invoice_total"),
             (Py.get_truthy donut_json "invoice_net_amount");
      by simplify_map_eq. }
  assert (d1 !! k = None) as Hd1.
  { revert H1. unfold total_from_text.
    destruct (details_from_json donut_json !! "invoice_total");
      [by intros [= <-]|].
    rewrite Hnums. simpl. destruct nums; intros [= <-]; by simplify_map_eq. }
  assert (d2 !! k = None) as Hd2.
  { revert H2. unfold net_from_text.
    destruct (d1 !! "invoice_net_amount"); [by intros [= <-]|].
    rewrite Hnums. simpl. destruct nums as [|x [|y l]].
    - by intros [= <-].
    - intros [= <-]. by simplify_map_eq.
    - destruct (sorted_desc (x :: y :: l) !! 1); [|done]. simpl.
      intros [= <-]. by simplify_map_eq. }
  unfold total_from_tables.
  destruct (d2 !! "invoice_total"); [congruence|].
  destruct (table_total (pdfplumber_open pdf_bytes)); [|congruence].
  intros Hk. rewrite lookup_insert_ne in Hk by done. congruence.
Qed.

(** X6. The dictionary returned holds no key besides [invoice_total] and
    [invoice_net_amount], whatever else the structured model supplies,
    and no value in it is the empty string. *)
Theorem financial_details_entries
    (pdfplumber_open : list Byte.byte → pdf_tables)
    (text : string) (pdf_bytes : list Byte.byte)
    (donut_json : gmap string string) :
  ∃ details,
    extract_financial_details pdfplumber_open text pdf_bytes donut_json
      = Some details
    ∧ ∀ k v, details !! k = Some v →
        (k = "invoice_total" ∨ k = "invoice_net_amount") ∧ v ≠ EmptyString.
Proof.
  destruct (extract_financial_details_is_Some pdfplumber_open
              text pdf_bytes donut_json) as [details Hdetails].
  exists details. split; [done|].
  intros k v. by apply (extract_financial_details_entries pdfplumber_open
                         text pdf_bytes donut_json).
Qed.

(** ** The amounts in the text *)

Lemma lang_word w cs : lang (word w) cs → cs = list_ascii_of_string w.
Proof.
  revert cs. induction w as [|c w IH]; intros cs; [done|].
  destruct w as [|c' w].
  - simpl. intros (x & -> & Hx). unfold lit in Hx.
    by apply Ascii.eqb_eq in Hx as ->.
  - change (word (String c (String c' w)))
      with (Seq (Cls (lit c)) (word (String c' w))).
    cbn [lang]. intros (a & b & -> & (x & -> & Hx) & Hb).
    unfold lit in Hx. apply Ascii.eqb_eq in Hx as ->.
    by rewrite (IH b Hb).
Qed.

Lemma elem_of_drop_elem {A} (l : list A) i x : x ∈ drop i l → x ∈ l.
Proof.
  intros Hin. rewrite <- (take_drop i l). apply elem_of_app. by right.
Qed.

(** A match of the amount pattern is not preceded by a digit and begins
    with a currency marker. *)
Lemma amt_match_marked s i m :
  match_at amt_re s i = Some m →
  (∀ c, last (take i s) = Some c → is_digit c = false)
  ∧ ∃ mk rest, group0 m = mk +:+ rest ∧ mk ∈ currency_markers
      ∧ ∃ c0, head (list_ascii_of_string mk) = Some c0 ∧ c0 ∈ s.
Proof.
  intros Hat.
  destruct (match_at_Some _ _ _ _ Hat) as (st' & cs0 & Hm & _ & _).
  apply Matches_Seq_inv in Hm as (st1 & Hnb & _).
  split.
  { inversion Hnb as [| | | | | | | | | |p st Hp]; subst. exact Hp. }
  apply match_at_lang in Hat as (cs & -> & Hl & _ & _ & Hdrop).
  unfold amt_re in Hl. cbn [lang] in Hl.
  destruct Hl as (a & b & -> & -> & (mk & b2 & -> & Hmk & _)).
  assert (∃ w, w ∈ currency_markers ∧ mk = list_ascii_of_string w)
    as (w & Hw & ->).
  { destruct Hmk as [Hmk|[Hmk|[Hmk|[Hmk|Hmk]]]].
    - exists "USD". split; [by left|]. by apply lang_word.
    - exists "US$". split; [by right; left|]. by apply lang_word.
    - exists "$". split; [by do 2 right; left|].
      destruct Hmk as (x & -> & Hx). unfold lit in Hx.
      by apply Ascii.eqb_eq in Hx as ->.
    - exists (String pound EmptyString). split; [by do 3 right; left|].
      destruct Hmk as (x & -> & Hx). unfold lit in Hx.
      by apply Ascii.eqb_eq in Hx as ->.
    - by destruct Hmk as (x & _ & Hx). }
  exists w, (string_of_list_ascii b2). split; [|split; [done|]].
  - simpl. by rewrite string_of_list_app, string_of_list_ascii_of_string.
  - simpl in Hdrop.
    assert (∃ c0 tl, list_ascii_of_string w = c0 :: tl) as (c0 & tl & Hw0).
    { repeat (apply elem_of_cons in Hw as [->|Hw]; [by eexists _, _|]).
      by apply elem_of_nil in Hw. }
    exists c0. rewrite Hw0. split; [done|].
    apply (elem_of_drop_elem s i). rewrite Hdrop, Hw0. by left.
Qed.

(** X7. Every amount the text scan collects stands right after one of
    the currency markers [USD], [US$], [$], pound sign, and the marker is
    not preceded by a digit; the amount itself is digits and commas, a
    dot and two digits. *)
Theorem amount_candidates_marked (text : string) (m : rmatch) :
  m ∈ finditer amt_re text →
  (∀ c, last (take (m_start m) (list_ascii_of_string text)) = Some c →
        is_digit c = false)
  ∧ (∃ mk rest, group0 m = mk +:+ rest ∧ mk ∈ currency_markers)
  ∧ ∃ ip d1 d2,
      group1 m = string_of_list_ascii (ip ++ ["."%char; d1; d2])
      ∧ Forall (λ c, is_digit c || lit "," c = true) ip ∧ 1 ≤ length ip
      ∧ is_digit d1 = true ∧ is_digit d2 = true.
Proof.
  intros [j Hat]%finditer_at.
  rewrite (match_at_start _ _ _ _ Hat).
  destruct (amt_match_marked _ _ _ Hat) as [Hprev (mk & rest & Hg & Hmk & _)].
  split; [done|]. split; [by exists mk, rest|]. by eapply amt_group.
Qed.

Lemma amount_candidates_marked_witness :
  (∀ c, last (take 7 (list_ascii_of_string "Total: $1,234.56")) = Some c →
        is_digit c = false)
  ∧ (∃ mk rest, "$1,234.56" = mk +:+ rest ∧ mk ∈ currency_markers)
  ∧ ∃ ip d1 d2,
      "1,234.56" = string_of_list_ascii (ip ++ ["."%char; d1; d2])
      ∧ Forall (λ c, is_digit c || lit "," c = true) ip ∧ 1 ≤ length ip
      ∧ is_digit d1 = true ∧ is_digit d2 = true.
Proof.
  apply (amount_candidates_marked "Total: $1,234.56"
           (RMatch 7 16 "$1,234.56" "1,234.56")).
  vm_compute. left.
Defined.

Lemma finditer_no_marker text :
  (∀ c, c ∈ list_ascii_of_string text →
        c ≠ "$"%char ∧ c ≠ pound ∧ c ≠ "U"%char) →
  finditer amt_re text = [].
Proof.
  intros Hno. destruct (finditer amt_re text) as [|m l] eqn:Hf; [done|].
  assert (m ∈ finditer amt_re text) as Hin by (rewrite Hf; by left).
  apply finditer_at in Hin as [j Hat].
  destruct (amt_match_marked _ _ _ Hat)
    as [_ (mk & rest & _ & Hmk & c0 & Hhead & Hc0)].
  destruct (Hno c0 Hc0) as (H1 & H2 & H3).
  repeat (apply elem_of_cons in Hmk as [->|Hmk];
          [simpl in Hhead; congruence|]).
  by apply elem_of_nil in Hmk.
Qed.

(** X8. A text without a currency marker gives no candidate, however
    many decimal numbers it holds: the text scan then resolves nothing,
    the net amount is what the structured model gave, and the total what
    the structured model or else the table gave. *)
Theorem no_marker_no_amount (pdfplumber_open : list Byte.byte → pdf_tables)
    (text : string) (pdf_bytes : list Byte.byte)
    (donut_json : gmap string string) :
  (∀ c, c ∈ list_ascii_of_string text →
        c ≠ "$"%char ∧ c ≠ pound ∧ c ≠ "U"%char) →
  amounts text = Some []
  ∧ ∃ details,
      extract_financial_details pdfplumber_open text pdf_bytes donut_json
        = Some details
      ∧ details !! "invoice_net_amount"
        = Py.get_truthy donut_json "invoice_net_amount"
      ∧ details !! "invoice_total"
        = match Py.get_truthy donut_json "invoice_total" with
          | Some jt => Some jt
          | None => table_total (pdfplumber_open pdf_bytes)
          end.
Proof.
  intros Hno.
  assert (amounts text = Some []) as Hnums.
  { unfold amounts, findall1. by rewrite (finditer_no_marker text Hno). }
  split; [done|].
  destruct (extract_financial_details_is_Some pdfplumber_open
              text pdf_bytes donut_json) as [details Hdetails].
  exists details. split; [done|].
  destruct (extract_financial_details_lookup _ _ _ _ _ _ Hnums Hdetails)
    as [Htotal Hnet].
  split.
  - rewrite Hnet. by destruct (Py.get_truthy donut_json "invoice_net_amount").
  - done.
Qed.

Lemma no_marker_no_amount_witness :
  amounts "Total 500.00 euros, net 450.00" = Some [].
Proof.
  refine (proj1 (no_marker_no_amount no_tables
                   "Total 500.00 euros, net 450.00" [] ∅ _)).
  intros c Hc.
  repeat (apply elem_of_cons in Hc as [->|Hc]; [by repeat split|]).
  by apply elem_of_nil in Hc.
Defined.

(** ** Greedy repetitions *)

Lemma from_option_last_cons (prev : option ascii) c t :
  from_option Some prev (last (c :: t)) = from_option Some (Some c) (last t).
Proof.
  destruct t as [|c' t]; [done|].
  change (last (c :: c' :: t)) with (last (c' :: t)).
  destruct (last (c' :: t)) eqn:Hl; [done|]. by apply last_None in Hl.
Qed.

(** With a continuation that accepts every state, a greedy repetition
    takes the whole run of the class, up to its bound. *)
Lemma rep_greedy_total {A} p lo hi g pos prev s (k : mstate → option A) :
  (∀ st, is_Some (k st)) →
  rep_greedy p lo hi g pos prev s k
  = if decide (lo ≤ run_length p hi s)
    then k (MState (pos + run_length p hi s)
                   (from_option Some prev (last (take (run_length p hi s) s)))
                   (drop (run_length p hi s) s) g)
    else None.
Proof.
  intros Hk. revert lo hi pos prev.
  induction s as [|c s IH]; intros lo hi pos prev.
  - simpl. rewrite Nat.add_0_r. destruct lo; [done|].
    by rewrite decide_False by lia.
  - cbn [rep_greedy run_length].
    destruct (p c && hi_open hi) eqn:Hp.
    + rewrite IH.
      destruct (decide (pred lo ≤ run_length p (pred <$> hi) s)) as [Hle|Hgt].
      * rewrite decide_True by lia.
        rewrite firstn_cons, skipn_cons, from_option_last_cons.
        replace (pos + S (run_length p (pred <$> hi) s))
          with (S pos + run_length p (pred <$> hi) s) by lia.
        by destruct (Hk (MState (S pos + run_length p (pred <$> hi) s)
                           (from_option Some (Some c)
                              (last (take (run_length p (pred <$> hi) s) s)))
                           (drop (run_length p (pred <$> hi) s) s) g))
          as [x ->].
      * rewrite decide_False by lia. destruct lo; [lia|done].
    + simpl. rewrite Nat.add_0_r. destruct lo; [done|].
      by rewrite decide_False by lia.
Qed.

(** The run stops at the bound or in front of a character that is not of
    the class. *)
Lemma run_length_stops p hi s :
  (∀ h, hi = Some h → run_length p hi s ≤ h)
  ∧ ((∀ c, s !! run_length p hi s = Some c → p c = false)
     ∨ hi = Some (run_length p hi s)).
Proof.
  revert hi. induction s as [|c s IH]; intros hi; cbn [run_length].
  - split; [lia|]. by left.
  - destruct (p c) eqn:Hp; simpl.
    + destruct hi as [[|h]|]; simpl.
      * split; [by intros ? [= <-]|]. by right.
      * destruct (IH (Some h)) as [Hb Hs]. split.
        -- intros ? [= <-]. specialize (Hb h eq_refl). simpl in Hb. lia.
        -- destruct Hs as [Hs|Hs]; [by left|right].
           simpl in Hs. injection Hs as Hs. simpl. by rewrite <- Hs.
      * destruct (IH None) as [_ Hs]. split; [done|].
        destruct Hs as [Hs|Hs]; [by left|done].
    + split; [lia|]. left. intros c' [= <-]. done.
Qed.

(** A match of a pattern that ends in a group of one repetition: the
    group holds the whole run of the class that begins where the group
    begins, up to the bound, and the match ends with it. *)
Lemma mt_ends_in_group r p lo hi :
  ends_in_group r p lo hi →
  ∀ st pos0 s0 m,
    mt r st (λ st', Some (to_match pos0 s0 st')) = Some m →
    ∃ st1 cs, consumes st st1 cs
      ∧ group1 m = string_of_list_ascii
                     (take (run_length p hi (m_rest st1)) (m_rest st1))
      ∧ m_end m = m_pos st1 + run_length p hi (m_rest st1)
      ∧ lo ≤ run_length p hi (m_rest st1).
Proof.
  induction r as [| |r1 _ r2 IH2| | | |r1 _| |]; try done.
  - intros Hend st pos0 s0 m. cbn [mt].
    intros (st' & Hm1 & Hrest)%mt_sound.
    destruct (IH2 Hend _ _ _ _ Hrest) as (st1 & cs2 & Hc2 & Hg & He & Hlo).
    destruct (Matches_consumes _ _ _ Hm1) as [cs1 Hc1].
    exists st1, (cs1 ++ cs2). split; [by eapply consumes_trans|done].
  - destruct r1 as [| | | | |p' lo' hi'| | |]; try done.
    intros (-> & -> & ->) st pos0 s0 m. cbn [mt].
    rewrite rep_greedy_total by done.
    destruct (decide (lo ≤ run_length p hi (m_rest st))) as [Hle|]; [|done].
    intros [= <-]. exists st, []. split; [apply consumes_nil|].
    unfold to_match. simpl.
    replace (m_pos st + run_length p hi (m_rest st) - m_pos st)
      with (run_length p hi (m_rest st)) by lia.
    done.
Qed.

Lemma match_at_ends_in_group r p lo hi s i m :
  ends_in_group r p lo hi →
  match_at r s i = Some m →
  ∃ j, i ≤ j
    ∧ group1 m = string_of_list_ascii
                   (take (run_length p hi (drop j s)) (drop j s))
    ∧ m_end m = j + run_length p hi (drop j s)
    ∧ lo ≤ run_length p hi (drop j s).
Proof.
  intros Hend Hat. unfold match_at, match_here in Hat.
  destruct (mt_ends_in_group _ _ _ _ Hend _ _ _ _ Hat)
    as (st1 & cs & (Hr & Hp & _) & Hg & He & Hlo).
  simpl in Hr, Hp.
  assert (m_rest st1 = drop (m_pos st1) s) as Hrest.
  { rewrite Hp, <- drop_drop, Hr. by rewrite drop_app_length. }
  rewrite Hrest in Hg, He, Hlo.
  exists (m_pos st1). split; [lia|done].
Qed.

(** The character after a match that ends in such a group is not of the
    class, unless the group is full. *)
Lemma group_is_whole_run r p lo hi text m :
  ends_in_group r p lo hi →
  search r text = Some m →
  (∀ c, list_ascii_of_string text !! m_end m = Some c → p c = false)
  ∨ hi = Some (String.length (group1 m)).
Proof.
  intros Hend (Hat & _)%search_leftmost.
  destruct (match_at_ends_in_group _ _ _ _ _ _ _ Hend Hat)
    as (j & _ & Hg & He & _).
  set (s := list_ascii_of_string text) in *.
  destruct (run_length_stops p hi (drop j s)) as [Hb Hstop].
  destruct Hstop as [Hstop|Hfull].
  - left. intros c Hc. apply Hstop. by rewrite lookup_drop, <- He.
  - right. rewrite Hg, string_length_of_list, length_take.
    rewrite Hfull at 1. f_equal.
    assert (run_length p hi (drop j s) ≤ length (drop j s)); [|lia].
    clear. generalize (drop j s) as l. revert hi.
    intros hi l. revert hi. induction l as [|c l IH]; intros hi; simpl; [lia|].
    destruct (p c && hi_open hi); [|lia]. specialize (IH (pred <$> hi)). lia.
Qed.

(** X9. The label step takes every digit that follows the label, up to
    eight: when a digit follows the number read, the number read has
    eight digits, so that a longer number is cut to its first eight
    digits and returned without padding. *)
Theorem vendor_number_cut_at_eight (text source_file : string)
    (donut_json : gmap string string) (m : rmatch) (c : ascii) :
  Py.get_truthy donut_json "vendor_number" = None →
  search vendor_label_re text = Some m →
  list_ascii_of_string text !! m_end m = Some c → is_digit c = true →
  String.length (group1 m) = 8
  ∧ extract_vendor_number text source_file donut_json = group1 m.
Proof.
  intros Hnone Hm Hc Hdigit.
  assert (String.length (group1 m) = 8) as Hlen.
  { destruct (group_is_whole_run vendor_label_re is_digit 6 (Some 8) text m)
      as [Hstop|Hfull]; [done|done| |].
    - rewrite (Hstop c Hc) in Hdigit. done.
    - by injection Hfull. }
  split; [done|]. unfold extract_vendor_number.
  rewrite Hnone, Hm. unfold Py.zfill. by rewrite Hlen.
Qed.

Lemma vendor_number_cut_at_eight_witness :
  String.length "12345678" = 8
  ∧ extract_vendor_number "Vendor # 1234567890" "mail.eml" ∅ = "12345678".
Proof.
  apply (vendor_number_cut_at_eight "Vendor # 1234567890" "mail.eml" ∅
           (RMatch 0 17 "Vendor # 12345678" "12345678") "9");
    vm_compute; reflexivity.
Defined.

(** X10. The tokens of the invoice number are whole runs: the token after
    the label ends where its characters end or after the twentieth
    character, so that a longer token is cut to its first twenty
    characters; the token after a date ends only where its characters
    end. *)
Theorem invoice_token_whole_run (text : string) :
  (∀ m c, search invoice_label_re text = Some m →
     list_ascii_of_string text !! m_end m = Some c →
     label_token_char c = true →
     String.length (group1 m) = 20)
  ∧ (∀ m c, search date_anchored_re text = Some m →
       list_ascii_of_string text !! m_end m = Some c →
       date_token_char c = false).
Proof.
  split.
  - intros m c Hm Hc Htok.
    destruct (group_is_whole_run invoice_label_re label_token_char 4
                (Some 20) text m) as [Hstop|Hfull]; [done|done| |].
    + rewrite (Hstop c Hc) in Htok. done.
    + by injection Hfull.
  - intros m c Hm Hc.
    destruct (group_is_whole_run date_anchored_re date_token_char 5
                None text m) as [Hstop|Hfull]; [done|done| |done].
    by apply Hstop.
Qed.

(** A token of twenty-four characters after the label. *)
Example invoice_token_cut_at_twenty :
  extract_invoice_number "Invoice No: ABCDEFGHIJ-1234567890-XYZ" "mail.eml" ∅
  = "ABCDEFGHIJ-123456789".
Proof. vm_compute. reflexivity. Qed.

(** ** Names that are never empty *)


Lemma extract_invoice_number_nonempty text source_file
    (donut_json : gmap string string) :
  Py.basename source_file ≠ EmptyString →
  extract_invoice_number text source_file donut_json ≠ EmptyString.
Proof.
  intros Hbase. unfold extract_invoice_number.
  destruct (get_invoice_field donut_json) as [v|] eqn:Hget.
  { unfold get_invoice_field in Hget.
    destruct (Py.get_truthy donut_json "invoice_number") eqn:H1.
    { injection Hget as <-. by apply get_truthy_Some in H1 as [_ ?]. }
    destruct (Py.get_truthy donut_json "invoice_id") eqn:H2.
    { injection Hget as <-. by apply get_truthy_Some in H2 as [_ ?]. }
    by apply get_truthy_Some in Hget as [_ ?]. }
  destruct (search invoice_label_re text) as [m|] eqn:Hlabel.
  { destruct (invoice_label_token _ _ Hlabel) as (-> & [_ Hlen] & _).
    apply string_nonempty_length. lia. }
  destruct (search date_anchored_re text) as [m|] eqn:Hdate.
  { destruct (date_anchored_token _ _ Hdate) as [_ Hlen].
    apply string_nonempty_length. lia. }
  destruct (findall0 structural_re text) as [|fb0 fb] eqn:Hfb.
  { by apply splitext_root_nonempty. }
  apply findall0_cons in Hfb as (m & (Hm & _)%search_leftmost & <-).
  apply structural_whole in Hm as (d & l & n & -> & _ & Hd & _).
  apply string_nonempty_length.
  rewrite string_length_of_list, !length_app. lia.
Qed.

(** X11. The invoice number is not empty whenever the path has a base
    name: each earlier step of the chain gives a value of at least four
    characters or a populated field. *)
Theorem invoice_number_not_empty (text source_file : string)
    (donut_json : gmap string string) :
  Py.basename source_file ≠ EmptyString →
  extract_invoice_number text source_file donut_json ≠ EmptyString.
Proof. apply extract_invoice_number_nonempty. Qed.

Lemma invoice_number_not_empty_witness :
  extract_invoice_number "no number here" "inbox/mail.eml" ∅ ≠ EmptyString.
Proof.
  apply (invoice_number_not_empty "no number here" "inbox/mail.eml" ∅).
  vm_compute. discriminate.
Defined.

(** ** Paths *)

Lemma endswith_suffix s t :
  Py.endswith s t = true
  ↔ list_ascii_of_string t `suffix_of` list_ascii_of_string s.
Proof.
  unfold Py.endswith. rewrite bool_decide_eq_true. split.
  - set (n := length (list_ascii_of_string s)
              - length (list_ascii_of_string t)).
    intros Hd. exists (take n (list_ascii_of_string s)).
    rewrite <- Hd. by rewrite take_drop.
  - intros [k ->]. rewrite length_app.
    replace (length k + length (list_ascii_of_string t)
             - length (list_ascii_of_string t)) with (length k) by lia.
    by rewrite drop_app_length.
Qed.

Lemma lower_app a b : Py.lower (a +:+ b) = Py.lower a +:+ Py.lower b.
Proof.
  unfold Py.lower. by rewrite list_of_string_app, fmap_app, string_of_list_app.
Qed.

Lemma endswith_lower_app x s t :
  Py.endswith (Py.lower s) t = true →
  Py.endswith (Py.lower (x +:+ s)) t = true.
Proof.
  rewrite !endswith_suffix, lower_app, list_of_string_app.
  apply suffix_app_r.
Qed.

Lemma path_join_endswith root fn t :
  Py.endswith (Py.lower fn) t = true →
  Py.endswith (Py.lower (path_join root fn)) t = true.
Proof.
  intros Hfn. unfold path_join.
  assert (Py.endswith (Py.lower (if negb (Py.truthy root)
                                    || Py.endswith root "/"
                                 then root +:+ fn
                                 else root +:+ "/" +:+ fn)) t = true) as Hj.
  { destruct (negb (Py.truthy root) || Py.endswith root "/").
    - by apply endswith_lower_app.
    - by do 2 apply endswith_lower_app. }
  destruct fn as [|c fn]; [done|].
  destruct (Ascii.eqb_spec c "/") as [->|Hne]; [done|].
  destruct c as [[] [] [] [] [] [] [] []]; try done.
Qed.

Lemma insert_sorted_perm x l : insert_sorted x l ≡ₚ x :: l.
Proof.
  induction l as [|y l IH]; simpl; [done|].
  destruct (String.leb x y); [done|]. rewrite IH. apply Permutation_swap.
Qed.

Lemma sort_strings_perm l : sort_strings l ≡ₚ l.
Proof.
  induction l as [|x l IH]; simpl; [done|].
  rewrite insert_sorted_perm. by constructor.
Qed.

Lemma eml_files_of_elem os_walk dir p :
  p ∈ eml_files_of os_walk dir →
  ∃ root files fn, (root, files) ∈ os_walk dir ∧ fn ∈ files
    ∧ Py.endswith (Py.lower fn) ".eml" = true ∧ p = path_join root fn.
Proof.
  unfold eml_files_of. rewrite sort_strings_perm.
  intros ([root files] & Hp & Hwalk)%list_elem_of_bind.
  apply list_elem_of_fmap_1 in Hp as (fn & -> & [Hfn Hin]%list_elem_of_filter).
  by exists root, files, fn.
Qed.

Lemma lower_l_not_slash c : Chars.lower c = "l"%char → c ≠ "/"%char.
Proof. by intros Hl ->. Qed.

Lemma endswith_eml_basename p :
  Py.endswith (Py.lower p) ".eml" = true → Py.basename p ≠ EmptyString.
Proof.
  intros [k Hk]%endswith_suffix.
  unfold Py.lower in Hk. rewrite list_ascii_of_string_of_list_ascii in Hk.
  assert (last (Chars.lower <$> list_ascii_of_string p) = Some "l"%char)
    as Hlast.
  { rewrite Hk.
    change (list_ascii_of_string ".eml")
      with (["."%char; "e"%char; "m"%char] ++ ["l"%char]).
    by rewrite app_assoc, last_snoc. }
  rewrite fmap_last in Hlast.
  destruct (last (list_ascii_of_string p)) as [c0|] eqn:Hp; [|done].
  injection Hlast as Hc.
  apply (basename_nonempty p c0); [done|]. by apply lower_l_not_slash.
Qed.

(** ** The rows read back *)

Lemma every_other_row_pairs records a :
  every_other (row_pairs records a) = (λ rec, header_row rec a) <$> records.
Proof.
  induction records as [|r records IH]; [done|].
  change (row_pairs (r :: records) a)
    with (header_row r a :: detail_row r a :: row_pairs records a).
  simpl. by rewrite IH.
Qed.

Lemma records_of_rows_written records a :
  records_of_rows (write_munis_csv records a) = records.
Proof.
  unfold records_of_rows, write_munis_csv. simpl.
  change (records ≫= λ rec, [header_row rec a; detail_row rec a])
    with (row_pairs records a).
  rewrite every_other_row_pairs.
  induction records as [|[v i t n] records IH]; [done|].
  rewrite !fmap_cons. by f_equal.
Qed.

(** X12. Nothing of a record is lost in the writing: reading the rows of
    type 1 back, the columns 2, 4, 7 and 8 give the records that were
    written, in their order, whatever the configuration. *)
Theorem write_munis_csv_read_back (records : list invoice_record) (a : args) :
  records_of_rows (write_munis_csv records a) = records.
Proof. apply records_of_rows_written. Qed.

(** ** The assembler and the run *)

Section RunFacts.
Context (extract_text : list Byte.byte → option string).
Context (parse_invoice_with_donut :
           list Byte.byte → option (gmap string string)).
Context (pdfplumber_open : list Byte.byte → pdf_tables).
Context (read_eml : string → list mime_part).
Context (isdir : string → bool).
Context (os_walk : string → list (string * list string)).
Context (script_dir : string).

Local Abbreviation record_of :=
  (record_of_payload extract_text parse_invoice_with_donut pdfplumber_open).
Local Abbreviation records_of :=
  (records_of_parts extract_text parse_invoice_with_donut pdfplumber_open).
Local Abbreviation records_from_eml :=
  (extract_records_from_eml extract_text parse_invoice_with_donut
     pdfplumber_open read_eml).
Local Abbreviation run :=
  (main extract_text parse_invoice_with_donut pdfplumber_open
     read_eml isdir os_walk script_dir).












End RunFacts.


(** ** The order of the messages *)

Lemma string_compare_trans a b c :
  String.compare a b ≠ Gt → String.compare b c ≠ Gt →
  String.compare a c ≠ Gt.
Proof.
  revert b c. induction a as [|x a IH]; intros [|y b] [|z c]; simpl; try done.
  unfold Ascii.compare.
  destruct (N.compare_spec (N_of_ascii x) (N_of_ascii y)) as [Hxy|Hxy|Hxy];
    destruct (N.compare_spec (N_of_ascii y) (N_of_ascii z)) as [Hyz|Hyz|Hyz];
    destruct (N.compare_spec (N_of_ascii x) (N_of_ascii z)) as [Hxz|Hxz|Hxz];
    try done; try lia.
  apply IH.
Qed.

Global Instance string_le_trans : Transitive string_le.
Proof.
  intros a b c. unfold string_le, String.leb. intros Hab Hbc.
  pose proof (string_compare_trans a b c) as Ht.
  destruct (String.compare a b), (String.compare b c),
           (String.compare a c); try done; by destruct Ht.
Qed.

Global Instance string_le_antisym : AntiSymm (=) string_le.
Proof. intros a b. apply String.leb_antisym. Qed.

Lemma string_le_total a b : string_le a b ∨ string_le b a.
Proof. apply String.leb_total. Qed.

Lemma insert_sorted_sorted x l :
  StronglySorted string_le l → StronglySorted string_le (insert_sorted x l).
Proof.
  induction 1 as [|y l Hl IH Hy]; simpl; [by repeat constructor|].
  destruct (String.leb x y) eqn:Hxy.
  - constructor; [by constructor|]. constructor; [done|].
    eapply Forall_impl; [exact Hy|]. intros z Hz. by transitivity y.
  - constructor; [done|].
    rewrite insert_sorted_perm. constructor; [|done].
    destruct (string_le_total x y) as [Hle|Hle]; [|done].
    unfold string_le in Hle. congruence.
Qed.

Lemma sort_strings_sorted l : StronglySorted string_le (sort_strings l).
Proof.
  induction l as [|x l IH]; simpl; [constructor|].
  by apply insert_sorted_sorted.
Qed.

Lemma sort_strings_perm_eq l1 l2 :
  l1 ≡ₚ l2 → sort_strings l1 = sort_strings l2.
Proof.
  intros Hperm. apply (StronglySorted_unique string_le).
  - apply sort_strings_sorted.
  - apply sort_strings_sorted.
  - by rewrite !sort_strings_perm.
Qed.

(** X16. The messages are read in ascending order of their paths, each
    path once for each time the walk lists it, and every path read ends
    in [.eml], capitals or not, and so has a base name. *)
Theorem eml_files_sorted (os_walk : string → list (string * list string))
    (dir : string) :
  StronglySorted string_le (eml_files_of os_walk dir)
  ∧ eml_files_of os_walk dir ≡ₚ eml_candidates os_walk dir
  ∧ ∀ p, p ∈ eml_files_of os_walk dir →
      Py.endswith (Py.lower p) ".eml" = true
      ∧ Py.basename p ≠ EmptyString.
Proof.
  split; [apply sort_strings_sorted|]. split; [apply sort_strings_perm|].
  intros p (root & files & fn & _ & _ & Hfn & ->)%eml_files_of_elem.
  assert (Py.endswith (Py.lower (path_join root fn)) ".eml" = true) as Hend
    by (by apply path_join_endswith).
  split; [done|]. by apply endswith_eml_basename.
Qed.

(** X17. The order in which the walk lists the folders and the files does
    not matter: two walks that list the same messages, in any order, give
    the same run. *)
Theorem main_walk_order_irrelevant
    (extract_text : list Byte.byte → option string)
    (parse_invoice_with_donut : list Byte.byte → option (gmap string string))
    (pdfplumber_open : list Byte.byte → pdf_tables)
    (read_eml : string → list mime_part) (isdir : string → bool)
    (os_walk1 os_walk2 : string → list (string * list string))
    (script_dir : string) (a : args) :
  eml_candidates os_walk1 (folder a) ≡ₚ eml_candidates os_walk2 (folder a) →
  main extract_text parse_invoice_with_donut pdfplumber_open read_eml isdir
       os_walk1 script_dir a
  = main extract_text parse_invoice_with_donut pdfplumber_open read_eml isdir
         os_walk2 script_dir a.
Proof.
  intros Hperm. unfold main.
  assert (eml_files_of os_walk1 (folder a) = eml_files_of os_walk2 (folder a))
    as ->; [|done].
  by apply sort_strings_perm_eq.
Qed.

Lemma main_walk_order_irrelevant_witness :
  main text_of_bytes no_fields no_tables (λ _, example_parts) (λ _, true)
       walk_ab "/opt/munis" example_args
  = main text_of_bytes no_fields no_tables (λ _, example_parts) (λ _, true)
         walk_ba "/opt/munis" example_args.
Proof.
  apply main_walk_order_irrelevant.
  vm_compute. apply Permutation_swap.
Defined.

(** ** The text of a document *)

Lemma append_assoc (a b c : string) : (a +:+ b) +:+ c = a +:+ (b +:+ c).
Proof.
  induction a as [|x a IH]; [done|].
  change (String x ((a +:+ b) +:+ c) = String x (a +:+ (b +:+ c))).
  by rewrite IH.
Qed.

Lemma append_empty_r (a : string) : a +:+ EmptyString = a.
Proof.
  induction a as [|x a IH]; [done|].
  change (String x (a +:+ EmptyString) = String x a). by rewrite IH.
Qed.

Lemma ocr_loop_text text images :
  ocr_loop text images = text +:+ ocr_text images.
Proof.
  revert text. induction images as [|[t|] images IH]; intros text; simpl.
  - by rewrite append_empty_r.
  - by rewrite IH, append_assoc.
  - by rewrite append_empty_r.
Qed.

Lemma pages_loop_Some text texts :
  pages_loop text (Some <$> texts) = Some (foldl add_page text texts).
Proof.
  revert text. induction texts as [|p texts IH]; intros text; [done|].
  rewrite fmap_cons. simpl. apply IH.
Qed.

Lemma pages_loop_None text pages :
  pages_loop text pages = None ↔ None ∈ pages.
Proof.
  revert text. induction pages as [|[p|] pages IH]; intros text; simpl.
  - split; [done|]. by intros ?%elem_of_nil.
  - rewrite IH. split; [by right|]. by intros [|]%elem_of_cons.
  - split; [by left|done].
Qed.

(** X18. An exception escapes the text extraction exactly when the
    reader cannot open the document or [extract_text] raises on a page.
    Otherwise the text read from the pages is never lost and never
    reordered: the result begins with it.  The OCR is consulted only when
    that text, stripped, is shorter than 20 characters; what it adds is
    the text of the images up to the first image on which it raises, and
    nothing when the rendering raises. *)
Theorem extract_text_keeps_pdf_text
    (reader : option (list (option (option string))))
    (ocr : option (list (option string))) :
  (extract_text_from_pdf_bytes reader ocr = None ↔
   reader = None ∨ ∃ pages, reader = Some pages ∧ None ∈ pages)
  ∧ ∀ texts, reader = Some (Some <$> texts) →
      ∃ added,
        extract_text_from_pdf_bytes reader ocr
        = Some (pages_text texts +:+ added)
        ∧ (20 ≤ String.length (Py.strip (pages_text texts)) →
           added = EmptyString)
        ∧ (ocr = None → added = EmptyString)
        ∧ (∀ images, ocr = Some images →
             String.length (Py.strip (pages_text texts)) < 20 →
             added = ocr_text images).
Proof.
  unfold extract_text_from_pdf_bytes. split.
  - destruct reader as [pages|]; simpl; [|split; [by left|done]].
    destruct (pages_loop EmptyString pages) as [text|] eqn:Hloop; simpl.
    + split; [done|]. intros [|(pages' & [= <-] & Hin)]; [done|].
      apply (proj2 (pages_loop_None EmptyString pages)) in Hin. congruence.
    + split; [|done]. intros _. right. exists pages. split; [done|].
      by eapply pages_loop_None.
  - intros texts ->. simpl. rewrite pages_loop_Some. simpl.
    fold (pages_text texts).
    destruct (Nat.ltb_spec (String.length (Py.strip (pages_text texts))) 20)
      as [Hshort|Hlong].
    + destruct ocr as [images|].
      * exists (ocr_text images). split; [by rewrite ocr_loop_text|].
        split; [lia|]. split; [done|]. by intros ? [= <-].
      * exists EmptyString. split; [by rewrite append_empty_r|].
        split; [done|]. split; [done|]. done.
    + exists EmptyString. split; [by rewrite append_empty_r|].
      split; [done|]. split; [done|]. intros. lia.
Qed.

(** ** The case of the letters *)

Section Blind.
Context (f : ascii → ascii).

Local Abbreviation on_option := (fmap (M:=option)).
Local Abbreviation on_list := (fmap (M:=list)).

Lemma rep_greedy_map {A B} (g : A → B) p lo hi grp pos prev s
    (k : mstate → option A) (k' : mstate → option B) :
  (∀ c, p (f c) = p c) →
  (∀ st, k' (map_state f st) = on_option g (k st)) →
  rep_greedy p lo hi (on_option (on_list f) grp) pos (on_option f prev)
    (on_list f s) k'
  = on_option g (rep_greedy p lo hi grp pos prev s k).
Proof.
  intros Hp Hk. revert lo hi pos prev.
  induction s as [|c s IH]; intros lo hi pos prev.
  - simpl. destruct lo; [|done]. apply (Hk (MState pos prev [] grp)).
  - rewrite fmap_cons. cbn [rep_greedy]. rewrite Hp.
    assert (match lo with
            | 0 => k' (MState pos (on_option f prev) (f c :: on_list f s)
                              (on_option (on_list f) grp))
            | S _ => None
            end
            = on_option g (match lo with
                           | 0 => k (MState pos prev (c :: s) grp)
                           | S _ => None
                           end)) as Hstop.
    { destruct lo; [|done]. apply (Hk (MState pos prev (c :: s) grp)). }
    destruct (p c && hi_open hi); [|exact Hstop].
    change (Some (f c)) with (f <$> Some c). rewrite IH.
    destruct (rep_greedy p (pred lo) (pred <$> hi) grp (S pos) (Some c) s k);
      [done|exact Hstop].
Qed.

Lemma at_boundary_map st :
  (∀ c, is_word (f c) = is_word c) →
  at_boundary (map_state f st) = at_boundary st.
Proof.
  intros Hw. unfold at_boundary, map_state. simpl. f_equal.
  - destruct (m_prev st); simpl; [apply Hw|done].
  - destruct (m_rest st); simpl; [done|apply Hw].
Qed.

Lemma mt_map {A B} (g : A → B) r :
  blind_to f r →
  ∀ st (k : mstate → option A) (k' : mstate → option B),
    (∀ st, k' (map_state f st) = on_option g (k st)) →
    mt r (map_state f st) k' = on_option g (mt r st k).
Proof.
  induction r as [|p|r1 IH1 r2 IH2|r1 IH1 r2 IH2|r1 IH1|p lo hi|r1 IH1| |p];
    intros Hb st k k' Hk; cbn [mt].
  - apply Hk.
  - destruct st as [pos prev [|c s] grp]; simpl; [done|].
    rewrite Hb. destruct (p c); [|done].
    apply (Hk (MState (S pos) (Some c) s grp)).
  - destruct Hb as [Hb1 Hb2]. apply IH1; [done|].
    intros st'. by apply IH2.
  - destruct Hb as [Hb1 Hb2].
    rewrite (IH1 Hb1 st k k' Hk), (IH2 Hb2 st k k' Hk).
    by destruct (mt r1 st k).
  - rewrite (IH1 Hb st k k' Hk), Hk. by destruct (mt r1 st k).
  - destruct st as [pos prev s grp]. by apply rep_greedy_map.
  - apply IH1; [done|]. intros st'. simpl.
    rewrite <- fmap_take.
    apply (Hk (MState (m_pos st') (m_prev st') (m_rest st')
                 (Some (take (m_pos st' - m_pos st) (m_rest st))))).
  - rewrite at_boundary_map by done. destruct (at_boundary st); [|done].
    apply Hk.
  - destruct st as [pos [c|] s grp]; simpl.
    + rewrite Hb. destruct (p c); [done|].
      apply (Hk (MState pos (Some c) s grp)).
    + apply (Hk (MState pos None s grp)).
Qed.

Lemma match_here_map r pos prev s :
  blind_to f r →
  match_here r pos (on_option f prev) (on_list f s)
  = on_option (map_match f) (match_here r pos prev s).
Proof.
  intros Hb. unfold match_here.
  apply (mt_map (map_match f) r Hb (MState pos prev s None)).
  intros st. simpl. f_equal. unfold to_match, map_match, map_string. simpl.
  rewrite !list_ascii_of_string_of_list_ascii, fmap_take.
  by destruct (m_grp st).
Qed.

Lemma search_from_map r pos prev s :
  blind_to f r →
  search_from r pos (on_option f prev) (on_list f s)
  = on_option (map_match f) (search_from r pos prev s).
Proof.
  intros Hb. revert pos prev.
  induction s as [|c s IH]; intros pos prev.
  - cbn [search_from fmap list_fmap].
    change [] with (f <$> @nil ascii) at 1. rewrite match_here_map by done.
    by destruct (match_here r pos prev []).
  - rewrite fmap_cons. cbn [search_from].
    rewrite <- fmap_cons, match_here_map by done.
    destruct (match_here r pos prev (c :: s)); [done|].
    apply (IH (S pos) (Some c)).
Qed.

Lemma scan_map r skip pos prev s :
  blind_to f r →
  scan r skip pos (on_option f prev) (on_list f s)
  = on_list (map_match f) (scan r skip pos prev s).
Proof.
  intros Hb. revert skip pos prev.
  induction s as [|c s IH]; intros skip pos prev.
  - destruct skip; [|done]. cbn [scan fmap list_fmap].
    change [] with (f <$> @nil ascii) at 1. rewrite match_here_map by done.
    by destruct (match_here r pos prev []).
  - destruct skip as [|skip].
    + rewrite fmap_cons. cbn [scan].
      rewrite <- fmap_cons, match_here_map by done.
      destruct (match_here r pos prev (c :: s)) as [m|].
      * simpl. f_equal. apply (IH _ (S pos) (Some c)).
      * apply (IH 0 (S pos) (Some c)).
    + rewrite fmap_cons. cbn [scan]. apply (IH skip (S pos) (Some c)).
Qed.

End Blind.

Lemma list_of_lower text :
  list_ascii_of_string (Py.lower text)
  = Chars.lower <$> list_ascii_of_string text.
Proof. unfold Py.lower. apply list_ascii_of_string_of_list_ascii. Qed.

Lemma search_lower r text :
  blind_to Chars.lower r →
  search r (Py.lower text) = map_match Chars.lower <$> search r text.
Proof.
  intros Hb. unfold search. rewrite list_of_lower.
  by apply (search_from_map Chars.lower r 0 None).
Qed.

Lemma findall0_lower r text :
  blind_to Chars.lower r →
  findall0 r (Py.lower text)
  = map_string Chars.lower <$> findall0 r text.
Proof.
  intros Hb. unfold findall0, finditer. rewrite list_of_lower.
  rewrite (scan_map Chars.lower r 0 0 None) by done.
  by rewrite <- !list_fmap_compose.
Qed.

Lemma lower_digits cs :
  Forall (λ c, is_digit c = true) cs →
  map_string Chars.lower (string_of_list_ascii cs) = string_of_list_ascii cs.
Proof.
  intros Hall. unfold map_string.
  rewrite list_ascii_of_string_of_list_ascii. f_equal.
  induction Hall as [|c cs Hc _ IH]; [done|].
  rewrite fmap_cons, IH. f_equal.
  revert Hc. by destruct c as [[] [] [] [] [] [] [] []].
Qed.

Lemma vendor_label_blind : blind_to Chars.lower vendor_label_re.
Proof.
  unfold vendor_label_re. cbn -[Chars.lower is_space is_digit lit lit_i].
  repeat split; intros c; by destruct c as [[] [] [] [] [] [] [] []].
Qed.

Lemma eight_digit_blind : blind_to Chars.lower eight_digit_re.
Proof.
  unfold eight_digit_re. cbn -[Chars.lower is_word is_digit].
  repeat split; intros c; by destruct c as [[] [] [] [] [] [] [] []].
Qed.

(** X19. The vendor number does not depend on the case of the letters of
    the text: the text in lower case gives the same number. *)
Theorem vendor_number_ignores_case (text source_file : string)
    (donut_json : gmap string string) :
  extract_vendor_number (Py.lower text) source_file donut_json
  = extract_vendor_number text source_file donut_json.
Proof.
  unfold extract_vendor_number.
  destruct (Py.get_truthy donut_json "vendor_number"); [done|].
  rewrite (search_lower _ _ vendor_label_blind).
  destruct (search vendor_label_re text) as [m|] eqn:Hm; simpl.
  { apply search_leftmost in Hm as (Hm & _).
    apply vendor_label_group in Hm as (cs & -> & Hall & _).
    by rewrite lower_digits. }
  rewrite (findall0_lower _ _ eight_digit_blind).
  destruct (findall0 eight_digit_re text) as [|fb0 fb] eqn:Hfb; [done|].
  simpl. apply findall0_cons in Hfb as (m & (Hm' & _)%search_leftmost & <-).
  apply eight_digit_whole in Hm' as (cs & -> & Hall & _).
  by rewrite lower_digits.
Qed.

(** The label in capitals. *)
Example vendor_label_in_capitals :
  extract_vendor_number "VENDOR NUMBER: 123456" "mail.eml" ∅ = "00123456"
  ∧ extract_vendor_number "Acct#1234567" "mail.eml" ∅ = "01234567".
Proof. vm_compute. done. Qed.

(** ** Amounts left empty *)

(** X20. In a record that is assembled, an empty amount means that no
    source gave one: the total is empty exactly when the structured model
    has none, the text holds no candidate and no table gives one; the net
    amount is empty exactly when the structured model has none and the
    text holds no candidate. *)
Theorem record_empty_amounts
    (extract_text : list Byte.byte → option string)
    (parse_invoice_with_donut : list Byte.byte → option (gmap string string))
    (pdfplumber_open : list Byte.byte → pdf_tables)
    (eml_path : string) (payload : list Byte.byte) (rec : invoice_record) :
  record_of_payload extract_text parse_invoice_with_donut pdfplumber_open
    eml_path payload = Some rec →
  ∃ text donut_json nums,
    extract_text payload = Some text
    ∧ parse_invoice_with_donut payload = Some donut_json
    ∧ amounts text = Some nums
    ∧ (invoice_total rec = EmptyString ↔
       Py.get_truthy donut_json "invoice_total" = None
       ∧ nums = []
       ∧ table_total (pdfplumber_open payload) = None)
    ∧ (invoice_net_amount rec = EmptyString ↔
       Py.get_truthy donut_json "invoice_net_amount" = None
       ∧ nums = []).
Proof.
  intros (text & donut_json & d & Ht & Hj & Hd & ->)%record_of_payload_Some.
  destruct (amounts_is_Some text) as [nums Hnums].
  destruct (extract_financial_details_lookup _ _ _ _ _ _ Hnums Hd)
    as [Htotal Hnet].
  pose proof (extract_financial_details_entries _ _ _ _ _ "invoice_total"
                (default EmptyString (d !! "invoice_total")) Hd) as Het.
  pose proof (extract_financial_details_entries _ _ _ _ _ "invoice_net_amount"
                (default EmptyString (d !! "invoice_net_amount")) Hd) as Hen.
  exists text, donut_json, nums.
  split; [done|]. split; [done|]. split; [done|]. simpl. split.
  - destruct (d !! "invoice_total") as [v|] eqn:Hv; simpl in *.
    + split.
      * intros ->. by destruct (Het eq_refl) as [_ ?].
      * intros (Hjt & -> & Htab). rewrite Hjt, Htab in Htotal. done.
    + split; [|done]. intros _.
      destruct (Py.get_truthy donut_json "invoice_total"); [done|].
      by destruct nums.
  - destruct (d !! "invoice_net_amount") as [v|] eqn:Hv; simpl in *.
    + split.
      * intros ->. by destruct (Hen eq_refl) as [_ ?].
      * intros (Hjn & ->). rewrite Hjn in Hnet. done.
    + split; [|done]. intros _.
      destruct (Py.get_truthy donut_json "invoice_net_amount"); [done|].
      by destruct nums as [|x [|y l]].
Qed.

(** X20 at the first scan of [example_parts], which carries a total and
    serves it as the net amount too. *)
Lemma record_empty_amounts_witness :
  ∃ text donut_json nums,
    text_of_bytes (bytes_of_text "Total due $500.00") = Some text
    ∧ no_fields (bytes_of_text "Total due $500.00") = Some donut_json
    ∧ amounts text = Some nums
    ∧ (invoice_total scan1_record = EmptyString ↔
       Py.get_truthy donut_json "invoice_total" = None
       ∧ nums = []
       ∧ table_total (no_tables (bytes_of_text "Total due $500.00")) = None)
    ∧ (invoice_net_amount scan1_record = EmptyString ↔
       Py.get_truthy donut_json "invoice_net_amount" = None
       ∧ nums = []).
Proof.
  apply (record_empty_amounts text_of_bytes no_fields no_tables
           "inbox/mail.eml"). vm_compute. reflexivity.
Defined.
